(** * Event aggregation pipeline ([src/index.js])

    A shallow embedding of the scrapers and of [getAllEvents]: the six
    source adapters, the settle-all join, the tally of the settled results,
    the removal of duplicate titles and the sort by start date.

    JavaScript values are a small inductive type, thrown errors are a
    completion monad, and the built-ins of the host whose tables are not
    part of the repository (case mapping, date parsing and printing, code
    unit substrings) are the fields of the class [Host]. *)

From Stdlib Require Import Ascii.
From stdpp Require Import base list strings gmap sorting pretty.

Set Warnings "-register-all,-notation-for-abbreviation,-clear-no-such-hyp".
Local Open Scope string_scope.
Local Open Scope list_scope.
Local Open Scope Z_scope.

(** ** JavaScript values *)

(** Values that a JSON body, a feed item or a scraped text can hold.
    Numbers are the integers: the fields read by the pipeline hold
    timestamps, counts and amounts. An object is the list of its own
    properties, which hold data: a parsed body has no method of its own. A
    function is a method of a built-in prototype read as a property, known
    by its name. *)
Inductive JSValue : Type :=
  | JSUndefined
  | JSNull
  | JSBoolean (b : bool)
  | JSNumber (n : Z)
  | JSString (s : string)
  | JSArray (items : list JSValue)
  | JSObject (props : list (string * JSValue))
  | JSFunction (name : string).

(** The result of an arithmetic expression: a number or NaN. *)
Inductive Number : Type :=
  | Finite (z : Z)
  | NaN.

Inductive Error : Type :=
  | TypeError (message : string)
  | RangeError (message : string)
  | TransportError (message : string).

(** ** Completions: a value or a thrown error *)

Inductive Completion (A : Type) : Type :=
  | Normal (a : A)
  | Throw (e : Error).
Arguments Normal {A} a.
Arguments Throw {A} e.

#[global] Instance Completion_ret : MRet Completion := λ A a, Normal a.
#[global] Instance Completion_bind : MBind Completion := λ A B f c,
  match c with
  | Normal a => f a
  | Throw e => Throw e
  end.

(** [try { body } catch (error) { handler }] *)
Definition try_catch {A} (body : Completion A) (handler : Error → Completion A)
    : Completion A :=
  match body with
  | Normal a => Normal a
  | Throw e => handler e
  end.

(** [try { body } finally { cleanup }]: a [cleanup] that throws replaces
    the outcome of [body], also when [body] has returned. *)
Definition finally {A} (body : Completion A) (cleanup : Completion unit)
    : Completion A :=
  match cleanup with
  | Normal _ => body
  | Throw e => Throw e
  end.

(** [array.forEach(callback)] where the callback updates the variables [St]
    it closes over and may throw: the first throw ends the loop. *)
Fixpoint forEach {A St} (callback : St → A → Completion St) (array : list A) (s : St)
    : Completion St :=
  match array with
  | [] => Normal s
  | x :: rest => s' ← callback s x; forEach callback rest s'
  end.

(** ** Built-ins of the host *)

Class Host := {
  (** [String.prototype.toLowerCase] *)
  toLowerCase : string → string;
  (** [String.prototype.substring(start, end)] *)
  substring : nat → nat → string → string;
  (** [Date.parse] on a string; [None] is NaN (an invalid date) *)
  Date_parse : string → option Z;
  (** [Date.prototype.toISOString] of a valid time value *)
  toISOString : Z → string;
  (** [Number.prototype.toString] of an integer *)
  Number_toString : Z → string;
}.

(** ** Conversions *)

Definition ToBoolean (v : JSValue) : bool :=
  match v with
  | JSUndefined | JSNull => false
  | JSBoolean b => b
  | JSNumber n => negb (n =? 0)
  | JSString s => negb (String.eqb s EmptyString)
  | JSArray _ | JSObject _ | JSFunction _ => true
  end.

Definition nullish (v : JSValue) : bool :=
  match v with
  | JSUndefined | JSNull => true
  | _ => false
  end.

(** [Array.prototype.join(",")] over the strings of the elements *)
Fixpoint join_comma (parts : list string) : string :=
  match parts with
  | [] => EmptyString
  | [s] => s
  | s :: rest => s +:+ "," +:+ join_comma rest
  end.

(** Whether [key] is an own property of the object. *)
Definition has_own (key : string) (props : list (string * JSValue)) : bool :=
  existsb (λ kv, String.eqb kv.1 key) props.

Section Conversions.
Context `{Host}.

(** [ToString(v)], as a template literal applies it. An object is
    converted by its [toString] method. That is the method of
    [Object.prototype] unless the object has an own property of that name;
    an own property holds data and is not callable, [valueOf] is then
    tried, which is not callable either or returns the object itself, and
    the conversion throws. An array is converted by joining the strings of
    its elements. *)
Fixpoint ToString (v : JSValue) : Completion string :=
  match v with
  | JSUndefined => Normal "undefined"
  | JSNull => Normal "null"
  | JSBoolean true => Normal "true"
  | JSBoolean false => Normal "false"
  | JSNumber n => Normal (Number_toString n)
  | JSString s => Normal s
  | JSArray items =>
      parts ←
        (fix each (l : list JSValue) : Completion (list string) :=
           match l with
           | [] => Normal []
           | x :: r =>
               s ← (if nullish x then Normal EmptyString else ToString x);
               ss ← each r;
               Normal (s :: ss)
           end) items;
      Normal (join_comma parts)
  | JSObject props =>
      if has_own "toString" props
      then Throw (TypeError "Cannot convert object to primitive value")
      else Normal "[object Object]"
  | JSFunction name => Normal ("function " +:+ name +:+ "() { [native code] }")
  end.
End Conversions.

(** [a || b] *)
Definition or_else (a b : JSValue) : JSValue := if ToBoolean a then a else b.

(** ** Events *)

(** The object literal every adapter builds; a property an adapter leaves
    out is [JSUndefined]. *)
Record Event : Type := mkEvent {
  website : string;
  event_name : JSValue;
  event_link : JSValue;
  description : JSValue;
  start_date : JSValue;
  end_date : JSValue;
  location : JSValue;
  tags : list JSValue;
  prize : JSValue;
  source : JSValue;
}.

(** ** Dates *)

(** The largest time value of a Date, in milliseconds from the epoch. *)
Definition maxTimeValue : Z := 8640000000000000.

Definition TimeClip (t : Z) : option Z :=
  if Z.abs t <=? maxTimeValue then Some t else None.

Section Dates.
Context `{Host}.

(** The time value of [new Date(value)]: a string is parsed, anything
    else is converted to a number; an array, an object or a function is
    first converted to a primitive, which is its string when the
    conversion does not throw. [None] is the invalid date. *)
Definition new_Date (value : JSValue) : Completion (option Z) :=
  match value with
  | JSString s => Normal (Date_parse s)
  | JSArray _ | JSObject _ | JSFunction _ =>
      s ← ToString value; Normal (Date_parse s)
  | JSUndefined => Normal None
  | JSNull => Normal (TimeClip 0)
  | JSBoolean b => Normal (TimeClip (if b then 1 else 0))
  | JSNumber n => Normal (TimeClip n)
  end.

(** [new Date(x) - new Date(y)] *)
Definition Date_minus (x y : option Z) : Number :=
  match x, y with
  | Some tx, Some ty => Finite (tx - ty)
  | _, _ => NaN
  end.
End Dates.

(** ** The tally of the settled results (index.js 330-343) *)

Inductive Settled : Type :=
  | Fulfilled (value : list Event)
  | Rejected (reason : Error).

Record Stats : Type := mkStats { success : nat; failed : nat }.

Definition tally (acc : list Event * Stats) (result : Settled) : list Event * Stats :=
  let '(allEvents, stats) := acc in
  match result with
  | Fulfilled value =>
      if (0 <? length value)%nat
      then (allEvents ++ value, mkStats (S (success stats)) (failed stats))
      else (allEvents, mkStats (success stats) (S (failed stats)))
  | Rejected _ => (allEvents, mkStats (success stats) (S (failed stats)))
  end.

Definition aggregate (results : list Settled) : list Event * Stats :=
  foldl tally ([], mkStats 0 0) results.

(** ** Removal of duplicate titles (index.js 346-354) *)

Definition in_a_z_0_9 (c : ascii) : bool :=
  let n := nat_of_ascii c in
  ((97 <=? n) && (n <=? 122) || (48 <=? n) && (n <=? 57))%nat.

(** [s.replace(/[^a-z0-9]/g, '')] *)
Fixpoint strip_non_alnum (s : string) : string :=
  match s with
  | EmptyString => EmptyString
  | String c rest =>
      if in_a_z_0_9 c then String c (strip_non_alnum rest) else strip_non_alnum rest
  end.

Section Dedupe.
Context `{Host}.

(** [event.event_name.toLowerCase().replace(/[^a-z0-9]/g, '')]: only a
    string has the method. *)
Definition normalizedTitle (event : Event) : Completion string :=
  match event_name event with
  | JSString s => Normal (strip_non_alnum (toLowerCase s))
  | JSUndefined =>
      Throw (TypeError "Cannot read properties of undefined (reading 'toLowerCase')")
  | JSNull =>
      Throw (TypeError "Cannot read properties of null (reading 'toLowerCase')")
  | _ => Throw (TypeError "event.event_name.toLowerCase is not a function")
  end.

Definition dedupe_step (st : list Event * gset string) (event : Event)
    : Completion (list Event * gset string) :=
  let '(uniqueEvents, seenTitles) := st in
  title ← normalizedTitle event;
  if decide (title ∈ seenTitles)
  then Normal (uniqueEvents, seenTitles)
  else Normal (uniqueEvents ++ [event], {[title]} ∪ seenTitles).

Definition removeDuplicates (allEvents : list Event) : Completion (list Event) :=
  st ← forEach dedupe_step allEvents ([], ∅);
  Normal st.1.
End Dedupe.

(** ** [Array.prototype.sort] *)

(** The sort is a built-in of the engine. The model is the one of V8, the
    engine of Node: the comparator is only ever called with the element
    that comes later in the array first, and only the test [order < 0] is
    made on its result. An array is sorted by finding the run at its start
    (reversed when strictly descending) and inserting the remaining
    elements one by one at the point a binary search gives. V8 sorts an
    array of less than 64 elements in exactly this way. From 64 elements
    on it cuts the array into runs of 32 to 64 elements that it sorts in
    this way, and merges them. The result is then the one given here when
    the whole array is one run, no element going before its predecessor,
    and when the comparator orders the elements consistently, a stable
    sort having one result; a statement that admits a comparator without
    such an order is made for less than 64 elements.

    The algorithm is given twice: [Array_sort] for a comparator that
    returns, on which the order of the result is studied, and
    [Array_sort_throwing] for a comparator that may throw, which is the
    one the pipeline calls; a throw of the comparator ends the sort. *)
Section ArraySort.
Context {A : Type} (comparefn : A → A → Number).

(** The comparator's result as the sort reads it: NaN counts as +0. *)
Definition SortCompare (x y : A) : Z :=
  match comparefn x y with
  | Finite v => v
  | NaN => 0
  end.

(** How many elements after [previousElement] continue the run. *)
Fixpoint run_tail (isDescending : bool) (previousElement : A) (rest : list A) : nat :=
  match rest with
  | [] => 0%nat
  | currentElement :: rest' =>
      let order := SortCompare currentElement previousElement in
      if (if isDescending then 0 <=? order else order <? 0)
      then 0%nat
      else S (run_tail isDescending currentElement rest')
  end.

(** The length of the run at the start of [work], and [work] with that
    run made ascending. *)
Definition CountAndMakeRun (work : list A) : nat * list A :=
  match work with
  | [] | [_] => (length work, work)
  | elementHigh :: elementLow :: rest =>
      let order := SortCompare elementLow elementHigh in
      let isDescending := order <? 0 in
      let runLength := (2 + run_tail isDescending elementLow rest)%nat in
      (runLength,
       if isDescending
       then reverse (take runLength work) ++ drop runLength work
       else work)
  end.

(** The binary search for the place of [pivot] in [sorted], between
    [left] and [right]; each round shrinks [right - left], so [fuel]
    rounds are enough when [right - left <= fuel]. *)
Fixpoint insertion_point (pivot : A) (sorted : list A) (fuel left right : nat) : nat :=
  match fuel with
  | O => left
  | S fuel' =>
      if (left <? right)%nat then
        let mid := (left + Nat.div2 (right - left))%nat in
        match sorted !! mid with
        | Some midElement =>
            if SortCompare pivot midElement <? 0
            then insertion_point pivot sorted fuel' left mid
            else insertion_point pivot sorted fuel' (S mid) right
        | None => left
        end
      else left
  end.

Definition insert_pivot (sorted : list A) (pivot : A) : list A :=
  let left := insertion_point pivot sorted (length sorted) 0 (length sorted) in
  take left sorted ++ pivot :: drop left sorted.

(** [sorted] is the part of the array before [start]; the elements from
    [start] on are inserted in turn. *)
Definition BinaryInsertionSort (sorted rest : list A) : list A :=
  foldl insert_pivot sorted rest.

Definition Array_sort (array : list A) : list A :=
  if (length array <? 2)%nat then array
  else
    let '(runLength, work) := CountAndMakeRun array in
    BinaryInsertionSort (take runLength work) (drop runLength work).
End ArraySort.

Section ArraySortThrowing.
Context {A : Type} (comparefn : A → A → Completion Number).

Definition SortCompare_throwing (x y : A) : Completion Z :=
  order ← comparefn x y;
  Normal (match order with Finite v => v | NaN => 0 end).

Fixpoint run_tail_throwing (isDescending : bool) (previousElement : A) (rest : list A)
    : Completion nat :=
  match rest with
  | [] => Normal 0%nat
  | currentElement :: rest' =>
      order ← SortCompare_throwing currentElement previousElement;
      if (if isDescending then 0 <=? order else order <? 0)
      then Normal 0%nat
      else n ← run_tail_throwing isDescending currentElement rest'; Normal (S n)
  end.

Definition CountAndMakeRun_throwing (work : list A) : Completion (nat * list A) :=
  match work with
  | [] | [_] => Normal (length work, work)
  | elementHigh :: elementLow :: rest =>
      order ← SortCompare_throwing elementLow elementHigh;
      let isDescending := order <? 0 in
      n ← run_tail_throwing isDescending elementLow rest;
      let runLength := (2 + n)%nat in
      Normal (runLength,
              if isDescending
              then reverse (take runLength work) ++ drop runLength work
              else work)
  end.

Fixpoint insertion_point_throwing (pivot : A) (sorted : list A) (fuel left right : nat)
    : Completion nat :=
  match fuel with
  | O => Normal left
  | S fuel' =>
      if (left <? right)%nat then
        let mid := (left + Nat.div2 (right - left))%nat in
        match sorted !! mid with
        | Some midElement =>
            order ← SortCompare_throwing pivot midElement;
            if order <? 0
            then insertion_point_throwing pivot sorted fuel' left mid
            else insertion_point_throwing pivot sorted fuel' (S mid) right
        | None => Normal left
        end
      else Normal left
  end.

Definition insert_pivot_throwing (sorted : list A) (pivot : A) : Completion (list A) :=
  left ← insertion_point_throwing pivot sorted (length sorted) 0 (length sorted);
  Normal (take left sorted ++ pivot :: drop left sorted).

Definition BinaryInsertionSort_throwing (sorted rest : list A) : Completion (list A) :=
  forEach insert_pivot_throwing rest sorted.

Definition Array_sort_throwing (array : list A) : Completion (list A) :=
  if (length array <? 2)%nat then Normal array
  else
    run ← CountAndMakeRun_throwing array;
    let '(runLength, work) := run in
    BinaryInsertionSort_throwing (take runLength work) (drop runLength work).

(** The comparator as [Array_sort] takes it; a throw, which ends the sort,
    is read as a tie. *)
Definition order_or_tie (x y : A) : Number :=
  match comparefn x y with
  | Normal order => order
  | Throw _ => NaN
  end.

(** [y] stays behind [x]: compared with [x], the comparator returns and
    does not send [y] before [x]. *)
Definition stays_behind (x y : A) : Prop :=
  ∃ order, SortCompare_throwing y x = Normal order ∧ ¬ order < 0.

(** [x] goes before [y]: the comparator returns and sends [x] before
    [y]. *)
Definition goes_before (x y : A) : Prop :=
  ∃ order, SortCompare_throwing x y = Normal order ∧ order < 0.

(** An array in which every element stays behind its predecessor. *)
Definition in_place (array : list A) : Prop := Sorted stays_behind array.
End ArraySortThrowing.

(** ** The sort by start date (index.js 357-361) *)

Section Sorter.
Context `{Host}.

Definition byStartDate (a b : Event) : Completion Number :=
  if negb (ToBoolean (start_date a)) then Normal (Finite 1)
  else if negb (ToBoolean (start_date b)) then Normal (Finite (-1))
  else
    dateA ← new_Date (start_date a);
    dateB ← new_Date (start_date b);
    Normal (Date_minus dateA dateB).

Definition sortByDate (uniqueEvents : list Event) : Completion (list Event) :=
  Array_sort_throwing byStartDate uniqueEvents.

(** The part of [getAllEvents] after the join: what it returns, from the
    settled results of the adapters. *)
Definition pipeline (results : list Settled) : Completion (list Event) :=
  let '(allEvents, stats) := aggregate results in
  uniqueEvents ← removeDuplicates allEvents;
  sortByDate uniqueEvents.
End Sorter.

(** ** Property reads and method calls on a value *)

Fixpoint own_property (key : string) (props : list (string * JSValue)) : JSValue :=
  match props with
  | [] => JSUndefined
  | (k, v) :: rest => if String.eqb k key then v else own_property key rest
  end.

(** The name of a value that has no property in an error message. *)
Definition nullish_name (v : JSValue) : string :=
  match v with
  | JSNull => "null"
  | _ => "undefined"
  end.

(** [v.key], for the keys the adapters read. None of them is an index or
    [length], and two are properties of a built-in prototype: [link], a
    method of [String.prototype], and [name], which every function has. *)
Definition get (v : JSValue) (key : string) : Completion JSValue :=
  match v with
  | JSUndefined | JSNull =>
      Throw (TypeError ("Cannot read properties of " +:+ nullish_name v +:+ " (reading '" +:+ key +:+ "')"))
  | JSObject props => Normal (own_property key props)
  | JSString _ =>
      if String.eqb key "link" then Normal (JSFunction "link") else Normal JSUndefined
  | JSFunction name =>
      if String.eqb key "name" then Normal (JSString name) else Normal JSUndefined
  | _ => Normal JSUndefined
  end.

(** [v?.key] *)
Definition get_opt (v : JSValue) (key : string) : Completion JSValue :=
  if nullish v then Normal JSUndefined else get v key.

Definition not_a_function {A} (method : string) : Completion A :=
  Throw (TypeError (method +:+ " is not a function")).

(** The elements of [v] for a call [v.map(...)]: only an array has the
    method. *)
Definition elements_for_map (v : JSValue) : Completion (list JSValue) :=
  match v with
  | JSArray items => Normal items
  | JSUndefined | JSNull =>
      Throw (TypeError ("Cannot read properties of " +:+ nullish_name v +:+ " (reading 'map')"))
  | _ => not_a_function "map"
  end.

(** [array.map(callback)] with a callback that may throw *)
Fixpoint array_map {A B} (callback : A → Completion B) (array : list A)
    : Completion (list B) :=
  match array with
  | [] => Normal []
  | x :: rest => y ← callback x; ys ← array_map callback rest; Normal (y :: ys)
  end.

(** The text of [s] before the first [separator]: [s.split(separator)[0]] *)
Definition split_first (separator s : string) : string :=
  match String.index 0 separator s with
  | Some n => String.substring 0 n s
  | None => s
  end.

Section Adapters.
Context `{Host}.

(** [v.slice(0, 20)]: an array and a string have the method. *)
Definition slice_0_20 (v : JSValue) : Completion JSValue :=
  match v with
  | JSArray items => Normal (JSArray (take 20 items))
  | JSString s => Normal (JSString (substring 0 20 s))
  | JSUndefined | JSNull =>
      Throw (TypeError ("Cannot read properties of " +:+ nullish_name v +:+ " (reading 'slice')"))
  | _ => not_a_function "slice"
  end.

(** [v?.substring(0, 200)] *)
Definition substring_0_200_opt (v : JSValue) : Completion JSValue :=
  match v with
  | JSUndefined | JSNull => Normal JSUndefined
  | JSString s => Normal (JSString (substring 0 200 s))
  | _ => not_a_function "substring"
  end.

(** [v?.split(' - ')[0]] *)
Definition split_dash_first_opt (v : JSValue) : Completion JSValue :=
  match v with
  | JSUndefined | JSNull => Normal JSUndefined
  | JSString s => Normal (JSString (split_first " - " s))
  | _ => not_a_function "split"
  end.

(** [v ? new Date(v).toISOString().split('T')[0] : null]; [toISOString]
    throws a RangeError on an invalid date. *)
Definition isoDay (v : JSValue) : Completion JSValue :=
  if ToBoolean v then
    date ← new_Date v;
    match date with
    | Some t => Normal (JSString (split_first "T" (toISOString t)))
    | None => Throw (RangeError "Invalid time value")
    end
  else Normal JSNull.

(** *** 1. Devpost (index.js 15-61) *)

Definition devpostFeedEvent (item : JSValue) : Completion Event :=
  title ← get item "title";
  link ← get item "link";
  contentSnippet ← get item "contentSnippet";
  snippet ← substring_0_200_opt contentSnippet;
  pubDate ← get item "pubDate";
  day ← isoDay pubDate;
  Normal {| website := "Devpost"; event_name := title; event_link := link;
            description := or_else snippet (JSString EmptyString);
            start_date := day; end_date := JSUndefined;
            location := JSString "Online"; tags := [JSString "Hackathon"];
            prize := JSUndefined; source := JSString "rss" |}.

Definition devpostApiEvent (h : JSValue) : Completion Event :=
  title ← get h "title";
  url ← get h "url";
  dates ← get h "submission_period_dates";
  first ← split_dash_first_opt dates;
  loc ← get h "location";
  Normal {| website := "Devpost"; event_name := title; event_link := url;
            description := JSUndefined;
            start_date := or_else first JSNull; end_date := JSUndefined;
            location := or_else loc (JSString "Online");
            tags := [JSString "Hackathon"];
            prize := JSUndefined; source := JSUndefined |}.

(** The body of the outer [try]; [feed] is the outcome of
    [rssParser.parseURL]. *)
Definition devpostFeedEvents (feed : Completion JSValue) : Completion (list Event) :=
  feed ← feed;
  items ← get feed "items";
  first20 ← slice_0_20 items;
  items ← elements_for_map first20;
  array_map devpostFeedEvent items.

(** The body of the [try] of the fallback; [response] is the [data] of the
    outcome of its [axios.get]. *)
Definition devpostApiEvents (response : Completion JSValue) : Completion (list Event) :=
  data ← response;
  hackathons ← get data "hackathons";
  if nullish hackathons then Normal []
  else
    first20 ← slice_0_20 hackathons;
    items ← elements_for_map first20;
    array_map devpostApiEvent items.

Definition scrapeDevpost (feed response : Completion JSValue) : Completion (list Event) :=
  try_catch (devpostFeedEvents feed)
    (λ error, try_catch (devpostApiEvents response) (λ apiError, Normal [])).

(** *** 2. Unstop (index.js 66-100) *)

Definition unstopEvent (h : JSValue) : Completion Event :=
  title ← get h "title";
  public_url ← get h "public_url";
  path ← ToString public_url;
  start ← get h "start_date";
  end_ ← get h "end_date";
  organisation ← get h "organisation";
  name ← get_opt organisation "name";
  type ← get h "type";
  prize_money ← get h "prize_money";
  Normal {| website := "Unstop"; event_name := title;
            event_link := JSString ("https://unstop.com" +:+ path);
            description := JSUndefined;
            start_date := or_else start JSNull; end_date := or_else end_ JSNull;
            location := or_else name (JSString "Various");
            tags := [JSString "Hackathon"; type];
            prize := or_else prize_money JSNull; source := JSUndefined |}.

Definition scrapeUnstop (response : Completion JSValue) : Completion (list Event) :=
  try_catch
    (data ← response;
     inner ← get data "data";
     list ← get_opt inner "data";
     if nullish list then Normal []
     else
       items ← elements_for_map list;
       array_map unstopEvent items)
    (λ error, Normal []).

(** *** 3. Dorahacks (index.js 105-156) *)

Definition dorahacksEvent (edge : JSValue) : Completion Event :=
  node ← get edge "node";
  title ← get node "title";
  slug ← get node "slug";
  slug ← ToString slug;
  text ← get node "description";
  text ← substring_0_200_opt text;
  startTime ← get node "startTime";
  start ← isoDay startTime;
  endTime ← get node "endTime";
  end_ ← isoDay endTime;
  totalReward ← get node "totalReward";
  Normal {| website := "Dorahacks"; event_name := title;
            event_link := JSString ("https://dorahacks.io/buidl/" +:+ slug);
            description := text;
            start_date := start; end_date := end_;
            location := JSString "Online";
            tags := [JSString "Hackathon"; JSString "Web3"];
            prize := totalReward; source := JSUndefined |}.

Definition scrapeDorahacks (response : Completion JSValue) : Completion (list Event) :=
  try_catch
    (data ← response;
     inner ← get data "data";
     bountiesList ← get_opt inner "bountiesList";
     edges ← get_opt bountiesList "edges";
     bounties ← elements_for_map (or_else edges (JSArray []));
     array_map dorahacksEvent bounties)
    (λ error, Normal []).

(** *** 5. HackerEarth (index.js 249-272) *)

Definition hackerEarthEvent (e : JSValue) : Completion Event :=
  title ← get e "title";
  url ← get e "url";
  start_tz ← get e "start_tz";
  start ← isoDay start_tz;
  end_tz ← get e "end_tz";
  end_ ← isoDay end_tz;
  Normal {| website := "HackerEarth"; event_name := title; event_link := url;
            description := JSUndefined;
            start_date := start; end_date := end_;
            location := JSString "Online";
            tags := [JSString "Coding"; JSString "Competition"];
            prize := JSUndefined; source := JSUndefined |}.

(** The body of the [try]. *)
Definition hackerEarthEvents (response : Completion JSValue) : Completion (list Event) :=
  data ← response;
  list ← get data "response";
  if nullish list then Normal []
  else
    first20 ← slice_0_20 list;
    items ← elements_for_map first20;
    array_map hackerEarthEvent items.

Definition scrapeHackerEarth (response : Completion JSValue) : Completion (list Event) :=
  try_catch (hackerEarthEvents response) (λ error, Normal []).
End Adapters.

(** ** The adapters that read a document *)

(** [array.forEach((x, index) => ...)] with a callback that does not
    throw; [index] is the index of the first element of [array]. *)
Fixpoint forEach_indexed {A St} (callback : St → A → nat → St) (array : list A)
    (index : nat) (s : St) : St :=
  match array with
  | [] => s
  | x :: rest => forEach_indexed callback rest (S index) (callback s x index)
  end.

(** *** 4. Devfolio (index.js 161-244) *)

(** What the callback of [page.evaluate] reads of a card: the trimmed text
    of the first title element, the [href] of the first link, the trimmed
    texts of the date and location elements; [None] when [querySelector]
    finds no such element. *)
Record Card : Type := mkCard {
  titleEl : option string;
  linkEl : option string;
  dateEl : option string;
  locationEl : option string;
}.

(** The rendered document: the answer of [querySelectorAll] to a selector. *)
Definition Document : Type := string → list Card.

(** The double quote character that the attribute selectors contain. *)
Definition dquote : string := String (ascii_of_nat 34) EmptyString.

Definition devfolioSelectors : list string :=
  [ "div[class*=" +:+ dquote +:+ "HackathonCard" +:+ dquote +:+ "]";
    "article[class*=" +:+ dquote +:+ "hackathon" +:+ dquote +:+ "]";
    "div[data-testid*=" +:+ dquote +:+ "hackathon" +:+ dquote +:+ "]";
    ".hackathon-card";
    "[class*=" +:+ dquote +:+ "card" +:+ dquote +:+ "]" ].

Definition of_text (o : option string) (default : JSValue) : JSValue :=
  match o with
  | Some s => JSString s
  | None => default
  end.

(** The loop over the selectors: [cards] is the answer to the last
    selector tried, and the loop stops at the first answer with a match. *)
Fixpoint select_cards (document : Document) (selectors : list string)
    (cards : list Card) : list Card :=
  match selectors with
  | [] => cards
  | selector :: rest =>
      let cards := document selector in
      if (0 <? length cards)%nat then cards else select_cards document rest cards
  end.

(** The callback of [cards.forEach]: [results] grows by the card when it
    is one of the first 20 and has a title element. The four properties
    are those of the object pushed; [formattedEvents] adds [website] and
    [tags] around them. *)
Definition devfolio_card (results : list Event) (card : Card) (index : nat) : list Event :=
  if (20 <=? index)%nat then results
  else
    match titleEl card with
    | Some title =>
        results ++
        [ {| website := "Devfolio"; event_name := JSString title;
             event_link := of_text (linkEl card) JSNull;
             description := JSUndefined;
             start_date := of_text (dateEl card) JSNull; end_date := JSUndefined;
             location := of_text (locationEl card) (JSString "Check website");
             tags := [JSString "Hackathon"];
             prize := JSUndefined; source := JSUndefined |} ]
    | None => results
    end.

(** A launched browser: [render] is the outcome of its steps up to and
    including the wait for the content (new page, navigation, wait), the
    rendered document or the error one of them threw; [close] is the
    outcome of [browser.close()]. *)
Record Browser : Type := mkBrowser {
  render : Completion Document;
  close : Completion unit;
}.

(** [launch] is the outcome of [puppeteer.launch]. The [finally] block
    closes the browser when there is one, whether the [try] block has
    returned or the [catch] block has: an error thrown by [close] is the
    outcome of the adapter. *)
Definition scrapeDevfolio (launch : Completion Browser) : Completion (list Event) :=
  finally
    (try_catch
       (browser ← launch;
        document ← render browser;
        let cards := select_cards document devfolioSelectors [] in
        Normal (forEach_indexed devfolio_card cards 0%nat []))
       (λ error, Normal []))
    (match launch with
     | Normal browser => close browser
     | Throw _ => Normal ()
     end).

(** *** 6. MLH (index.js 277-312) *)

(** What the callback of [each] reads of an [.event] element: the trimmed
    texts of the title, date and location elements (the empty string when
    there is none) and the [href] of the first link. *)
Record EventElement : Type := mkEventElement {
  title_text : string;
  href : option string;
  date_text : string;
  location_text : string;
}.

Definition mlh_element (events : list Event) (elem : EventElement) (i : nat) : list Event :=
  if (20 <=? i)%nat then events
  else if ToBoolean (JSString (title_text elem)) then
    events ++
    [ {| website := "MLH"; event_name := JSString (title_text elem);
         event_link :=
           match href elem with
           | Some link =>
               if ToBoolean (JSString link) then JSString ("https://mlh.io" +:+ link)
               else JSNull
           | None => JSNull
           end;
         description := JSUndefined;
         start_date := JSString (date_text elem); end_date := JSUndefined;
         location := or_else (JSString (location_text elem)) (JSString "Various");
         tags := [JSString "Hackathon"; JSString "Student"];
         prize := JSUndefined; source := JSUndefined |} ]
  else events.

(** [page] is the outcome of the request and of loading its body: the
    [.event] elements of the document, or the error thrown. *)
Definition getMLHEvents (page : Completion (list EventElement)) : Completion (list Event) :=
  try_catch
    (elements ← page;
     Normal (forEach_indexed mlh_element elements 0%nat []))
    (λ error, Normal []).

(** ** [getAllEvents] (index.js 317-374) *)

(** What the sources answer during one run. *)
Record World : Type := mkWorld {
  devpost_feed : Completion JSValue;
  devpost_api : Completion JSValue;
  unstop_response : Completion JSValue;
  dorahacks_response : Completion JSValue;
  devfolio_browser : Completion Browser;
  hackerearth_response : Completion JSValue;
  mlh_page : Completion (list EventElement);
}.

(** The names of the sources, in the order of the adapters (index.js 332). *)
Definition sources : list string :=
  ["Devpost"; "Unstop"; "Dorahacks"; "Devfolio"; "HackerEarth"; "MLH"].

(** The outcome [Promise.allSettled] records for one promise. *)
Definition settle (outcome : Completion (list Event)) : Settled :=
  match outcome with
  | Normal value => Fulfilled value
  | Throw reason => Rejected reason
  end.

Section Pipeline.
Context `{Host}.

Definition allSettled (w : World) : list Settled :=
  [ settle (scrapeDevpost (devpost_feed w) (devpost_api w));
    settle (scrapeUnstop (unstop_response w));
    settle (scrapeDorahacks (dorahacks_response w));
    settle (scrapeDevfolio (devfolio_browser w));
    settle (scrapeHackerEarth (hackerearth_response w));
    settle (getMLHEvents (mlh_page w)) ].

Definition getAllEvents (w : World) : Completion (list Event) :=
  pipeline (allSettled w).
End Pipeline.

(** ** A host to run the model on

    The built-ins restricted to the inputs where their result does not
    depend on Unicode tables or on the engine: ASCII strings, calendar
    dates written [YYYY-MM-DD] and integers below [10^21] in magnitude,
    which print in decimal. On these the functions below are the
    built-ins; a string of another form is not a date here. *)
Module ReferenceHost.

Definition lower_ascii (c : ascii) : ascii :=
  let n := nat_of_ascii c in
  if ((65 <=? n) && (n <=? 90))%nat then ascii_of_nat (n + 32) else c.

Fixpoint lower (s : string) : string :=
  match s with
  | EmptyString => EmptyString
  | String c rest => String (lower_ascii c) (lower rest)
  end.

Definition msPerDay : Z := 86400000.

(** Days from the epoch to the civil date [y-m-d]. *)
Definition days_from_civil (y m d : Z) : Z :=
  let y := if m <=? 2 then y - 1 else y in
  let era := y / 400 in
  let yoe := y - era * 400 in
  let doy := (153 * (if 2 <? m then m - 3 else m + 9) + 2) / 5 + d - 1 in
  let doe := yoe * 365 + yoe / 4 - yoe / 100 + doy in
  era * 146097 + doe - 719468.

(** The civil date [(y, m, d)] of a day counted from the epoch. *)
Definition civil_from_days (z : Z) : Z * Z * Z :=
  let z := z + 719468 in
  let era := z / 146097 in
  let doe := z - era * 146097 in
  let yoe := (doe - doe / 1460 + doe / 36524 - doe / 146096) / 365 in
  let doy := doe - (365 * yoe + yoe / 4 - yoe / 100) in
  let mp := (5 * doy + 2) / 153 in
  let d := doy - (153 * mp + 2) / 5 + 1 in
  let m := if mp <? 10 then mp + 3 else mp - 9 in
  (yoe + era * 400 + (if m <=? 2 then 1 else 0), m, d).

Definition digit (c : ascii) : option Z :=
  let n := nat_of_ascii c in
  if ((48 <=? n) && (n <=? 57))%nat then Some (Z.of_nat n - 48) else None.

Fixpoint digits (acc : Z) (cs : list ascii) : option Z :=
  match cs with
  | [] => Some acc
  | c :: rest => d ← digit c; digits (10 * acc + d) rest
  end.

Definition is_dash (c : ascii) : bool := (nat_of_ascii c =? 45)%nat.

Definition parse (s : string) : option Z :=
  match String.list_ascii_of_string s with
  | [y1; y2; y3; y4; s1; m1; m2; s2; d1; d2] =>
      if is_dash s1 && is_dash s2 then
        y ← digits 0 [y1; y2; y3; y4];
        m ← digits 0 [m1; m2];
        d ← digits 0 [d1; d2];
        if (1 <=? m) && (m <=? 12) && (1 <=? d)
           && bool_decide (civil_from_days (days_from_civil y m d) = (y, m, d))
        then Some (days_from_civil y m d * msPerDay)
        else None
      else None
  | _ => None
  end.

(** [n] in decimal on at least [width] digits *)
Definition padded (width : nat) (n : Z) : string :=
  let s := pretty n in
  String.concat EmptyString (replicate (width - String.length s)%nat "0") +:+ s.

Definition iso (t : Z) : string :=
  let '(y, m, d) := civil_from_days (t / msPerDay) in
  let ms := t mod msPerDay in
  padded 4 y +:+ "-" +:+ padded 2 m +:+ "-" +:+ padded 2 d +:+ "T" +:+
  padded 2 (ms / 3600000) +:+ ":" +:+ padded 2 (ms / 60000 mod 60) +:+ ":" +:+
  padded 2 (ms / 1000 mod 60) +:+ "." +:+ padded 3 (ms mod 1000) +:+ "Z".

Definition host : Host :=
  {| toLowerCase := lower;
     substring := λ from to s, String.substring from (to - from)%nat s;
     Date_parse := parse;
     toISOString := iso;
     Number_toString := pretty |}.

End ReferenceHost.

(** ** The notions the statements are about *)

(** The order of the ranks: a date before a later date, and every date
    before no date. *)
Definition rankLe (r1 r2 : option Z) : Prop :=
  match r1, r2 with
  | _, None => True
  | None, Some _ => False
  | Some t1, Some t2 => t1 ≤ t2
  end.

(** The order of the two answers of the test [!e.start_date]: an event
    with a date before an event without. *)
Definition flagLe (f1 f2 : bool) : Prop := f1 = true → f2 = true.

(** A character of the class [a-z0-9]: a lowercase letter or a digit. *)
Definition alphanumeric (c : ascii) : Prop :=
  (nat_of_ascii "a" ≤ nat_of_ascii c ≤ nat_of_ascii "z")%nat
  ∨ (nat_of_ascii "0" ≤ nat_of_ascii c ≤ nat_of_ascii "9")%nat.

#[global] Instance alphanumeric_dec c : Decision (alphanumeric c).
Proof. unfold alphanumeric. apply _. Defined.

Section Notions.
Context `{Host}.

(** The title of an event, when it is a string. *)
Definition title (e : Event) : option string :=
  match event_name e with
  | JSString s => Some s
  | _ => None
  end.

Definition titled (e : Event) : Prop := is_Some (title e).

(** The comparison key of a title: lowercase, with every character
    outside [a-z0-9] deleted. *)
Definition titleKey (e : Event) : option string :=
  (λ s, strip_non_alnum (toLowerCase s)) <$> title e.

(** The events that are the first of their key in input order: the one
    at index [i] stays when no event before [i] has its key. *)
Definition firstOfEachKey (events : list Event) : list Event :=
  omap id
    (imap (λ i e, if decide (titleKey e ∈ titleKey <$> take i events)
                  then None else Some e) events).

(** An event has a start date when the sorter's test [!e.start_date]
    fails. *)
Definition dated (e : Event) : Prop := ToBoolean (start_date e) = true.
Definition undated (e : Event) : Prop := ToBoolean (start_date e) = false.

(** The conversion of the start date to a date returns. *)
Definition datable (e : Event) : Prop := ∃ date, new_Date (start_date e) = Normal date.

(** The time value the sorter parses out of the start date. *)
Definition parsedDate (e : Event) : option Z :=
  match new_Date (start_date e) with
  | Normal date => date
  | Throw _ => None
  end.

(** The rank of an event for the sorter: its date, or no rank, which
    comes last, when it has none. *)
Definition dateRank (e : Event) : option Z :=
  if ToBoolean (start_date e) then Some (default 0 (parsedDate e)) else None.

(** A start date that is present parses to a valid date. *)
Definition parseable (e : Event) : Prop := undated e ∨ is_Some (parsedDate e).

(** A start date that is present and does not parse. *)
Definition unparseable (e : Event) : Prop :=
  dated e ∧ new_Date (start_date e) = Normal None.

#[global] Instance dated_dec e : Decision (dated e).
Proof. unfold dated. apply _. Defined.
#[global] Instance undated_dec e : Decision (undated e).
Proof. unfold undated. apply _. Defined.

(** The test [!e.start_date] of the comparator. *)
Definition noDate (e : Event) : bool := negb (ToBoolean (start_date e)).

(** The output is a permutation of the input, with the undated events
    last and in their input order. *)
Definition undatedLast (input output : list Event) : Prop :=
  output ≡ₚ input ∧
  (∀ i j a b, output !! i = Some a → output !! j = Some b →
              undated a → dated b → (j < i)%nat) ∧
  filter undated output = filter undated input.

(** The dated events of the output are in ascending order of their parsed
    date. *)
Definition datesAscending (output : list Event) : Prop :=
  ∀ i j a b ta tb, (i < j)%nat → output !! i = Some a → output !! j = Some b →
                   dated a → dated b →
                   parsedDate a = Some ta → parsedDate b = Some tb → ta ≤ tb.

(** What the sorter is to return on [input]: a permutation, the undated
    events last and in their input order, the dated ones by ascending
    date, and a list the sorter leaves as it is. *)
Definition sortedByDate (input output : list Event) : Prop :=
  undatedLast input output ∧ datesAscending output
  ∧ sortByDate output = Normal output.

(** An event whose start date does not parse is placed like an undated
    one: after every event with a valid date. *)
Definition unparseableLast (output : list Event) : Prop :=
  ∀ i j a b, output !! i = Some a → output !! j = Some b →
             unparseable a → dated b → is_Some (parsedDate b) → (j < i)%nat.

(** A settled result contributes when it is fulfilled with one or more
    events. *)
Definition contributes (result : Settled) : bool :=
  match result with
  | Fulfilled (_ :: _) => true
  | _ => false
  end.

Definition contribution (result : Settled) : list Event :=
  match result with
  | Fulfilled value => if contributes result then value else []
  | Rejected _ => []
  end.
End Notions.

(** The cap on the number of events of one adapter. *)
Definition maxEvents : nat := 20.

(** ** Sample data *)

Module Samples.

Definition event (site name : string) (date : JSValue) : Event :=
  {| website := site; event_name := JSString name; event_link := JSNull;
     description := JSUndefined; start_date := date; end_date := JSUndefined;
     location := JSString "Online"; tags := [JSString "Hackathon"];
     prize := JSUndefined; source := JSUndefined |}.

Definition march : Event := event "Devpost" "AI Hack" (JSString "2025-03-01").
Definition january : Event := event "Unstop" "Web3 Jam" (JSString "2025-01-01").
Definition tbd : Event := event "MLH" "Hack Night" (JSString "TBD").
Definition nodate : Event := event "Devfolio" "Code Fest" JSNull.
Definition may : Event := event "HackerEarth" "Data Dive" (JSString "2025-05-01").

(** An object with the one property [key]. *)
Definition obj1 (key : string) (v : JSValue) : JSValue := JSObject [(key, v)].

(** An event whose start date is the object [{"toString": 1}] of a parsed
    body. *)
Definition night : Event := event "Unstop" "Night Hack" (obj1 "toString" (JSNumber 1)).

(** A record of the Unstop search result with the given title. *)
Definition unstopRecord (title : JSValue) : JSValue :=
  JSObject [("title", title); ("public_url", JSString "/hackathons/x")].

(** The body of an Unstop answer with the given records. *)
Definition unstopBody (records : list JSValue) : JSValue :=
  obj1 "data" (obj1 "data" (JSArray records)).

Definition down {A} : Completion A := Throw (TransportError "ECONNREFUSED").

(** A run in which only Unstop answers, with the given body. *)
Definition onlyUnstop (body : JSValue) : World :=
  {| devpost_feed := down; devpost_api := down;
     unstop_response := Normal body;
     dorahacks_response := down; devfolio_browser := down;
     hackerearth_response := down; mlh_page := down |}.

End Samples.

(** ** The notions of the further properties *)

(** The object [getMLHEvents] pushes for an element with a title. *)
Definition mlhEvent (elem : EventElement) : Event :=
  {| website := "MLH"; event_name := JSString (title_text elem);
     event_link :=
       match href elem with
       | Some link =>
           if ToBoolean (JSString link) then JSString ("https://mlh.io" +:+ link)
           else JSNull
       | None => JSNull
       end;
     description := JSUndefined;
     start_date := JSString (date_text elem); end_date := JSUndefined;
     location := or_else (JSString (location_text elem)) (JSString "Various");
     tags := [JSString "Hackathon"; JSString "Student"];
     prize := JSUndefined; source := JSUndefined |}.

(** The event [scrapeDevfolio] makes of a card, when the card has a title
    element. *)
Definition devfolioEvent (card : Card) : option Event :=
  match titleEl card with
  | Some title =>
      Some {| website := "Devfolio"; event_name := JSString title;
              event_link := of_text (linkEl card) JSNull;
              description := JSUndefined;
              start_date := of_text (dateEl card) JSNull; end_date := JSUndefined;
              location := of_text (locationEl card) (JSString "Check website");
              tags := [JSString "Hackathon"];
              prize := JSUndefined; source := JSUndefined |}
  | None => None
  end.

(** The events an adapter hands to the aggregator: its list, or nothing
    when its promise is rejected. *)
Definition eventsOf (outcome : Completion (list Event)) : list Event :=
  match outcome with
  | Normal events => events
  | Throw _ => []
  end.

(** * The first script ([src/unnamed/part_000])

    The script scrapes three sources one after the other, appends the
    events to a spreadsheet and posts each one to a chat. The calls to the
    outside are recorded in a trace, in the order they are made. *)
Module Legacy.

(** How a source is read: a feed, or a page with the selectors of the
    cards, of the title and of the link. *)
Inductive Kind : Type :=
  | Rss
  | Html (selector title link : string).

Record Source : Type := mkSource { name : string; url : string; kind : Kind }.

Definition sources : list Source :=
  [ mkSource "Devpost" "https://devpost.com/hackathons.atom" Rss;
    mkSource "Devfolio" "https://devfolio.co/hackathons"
      (Html ".hackathon-card" ".hackathon-title" "a");
    mkSource "Kaggle" "https://www.kaggle.com/competitions"
      (Html ".competition-item" ".competition-title" "a") ].

(** An item of [feed.items] as the feed parser builds it: an object whose
    [title] and [link] are strings or absent. *)
Record Item : Type := mkItem { item_title : option string; item_link : option string }.

(** What the callback of [each] reads of an element: the trimmed text of
    its descendants matching a selector, and the [href] of the first of
    them. *)
Record Element : Type := mkElement {
  text_of : string → string;
  href_of : string → option string;
}.

(** A loaded page: the elements a selector matches. *)
Definition Page : Type := string → list Element.

(** The object pushed to [events]. *)
Record Entry : Type := mkEntry {
  source : string;
  title : option string;
  link : option string;
}.

(** What the sources answer: [parser.parseURL] and [axios.get] followed by
    [cheerio.load], by URL. *)
Record Web : Type := mkWeb {
  parseURL : string → Completion (list Item);
  axios_get : string → Completion Page;
}.

Definition push_item (src : Source) (events : list Entry) (item : Item) : list Entry :=
  events ++ [ {| source := name src; title := item_title item; link := item_link item |} ].

(** The callback of [each]: the element is pushed when both its title and
    its link are truthy. *)
Definition push_element (src : Source) (title_selector link_selector : string)
    (events : list Entry) (el : Element) : list Entry :=
  let title := text_of el title_selector in
  match href_of el link_selector with
  | Some link =>
      if ToBoolean (JSString title) && ToBoolean (JSString link)
      then events ++ [ {| source := name src; title := Some title;
                          link := Some link |} ]
      else events
  | None => events
  end.

(** One round of the loop over the sources: the [try] block fetches and
    pushes, the [catch] block logs and goes on with [events] as it is
    (nothing is pushed before a fetch has succeeded). *)
Definition scrape_source (web : Web) (events : list Entry) (src : Source)
    : Completion (list Entry) :=
  try_catch
    (match kind src with
     | Rss =>
         items ← parseURL web (url src);
         Normal (foldl (push_item src) events items)
     | Html selector title_selector link_selector =>
         page ← axios_get web (url src);
         Normal (foldl (push_element src title_selector link_selector) events
                   (page selector))
     end)
    (λ err, Normal events).

Definition scrapeEvents (web : Web) : Completion (list Entry) :=
  forEach (scrape_source web) sources [].

(** A call to the outside. *)
Inductive Action : Type :=
  | Append (spreadsheetId : option string) (range : string)
      (rows : list (list (option string)))
  | Post (url : string) (chat_id : option string) (text : string) (parse_mode : string).

(** A computation that calls the outside: the calls made, and how it
    ended. *)
Definition Run (A : Type) : Type := list Action * Completion A.

Definition run_bind {A B} (m : Run A) (k : A → Run B) : Run B :=
  match m with
  | (trace, Normal a) => let '(trace', c) := k a in (trace ++ trace', c)
  | (trace, Throw e) => (trace, Throw e)
  end.

(** The variables of the environment: strings, or undefined when unset. *)
Record Env : Type := mkEnv {
  TELEGRAM_BOT_TOKEN : option string;
  TELEGRAM_CHANNEL_ID : option string;
  GOOGLE_SHEET_ID : option string;
}.

(** The services written to: the outcome of [getSheets], of the append,
    and of the post number [i]; and the clock read for row number [i]. *)
Record Services : Type := mkServices {
  getSheets : Completion unit;
  append : Completion unit;
  post : nat → Completion unit;
  clock : nat → Z;
}.

Definition newline : string := String (ascii_of_nat 10) EmptyString.

(** The text a template literal makes of a string that may be absent. *)
Definition shown (o : option string) : string := default "undefined" o.

Section Script.
Context `{Host}.

(** [[e.source, e.title, e.link, new Date().toISOString()]] *)
Definition row (services : Services) (i : nat) (e : Entry) : list (option string) :=
  [Some (source e); title e; link e; Some (toISOString (clock services i))].

Definition updateSheet (env : Env) (services : Services) (events : list Entry)
    : Run unit :=
  match getSheets services with
  | Throw e => ([], Throw e)
  | Normal _ =>
      ([Append (GOOGLE_SHEET_ID env) "Events!A:D" (imap (row services) events)],
       append services)
  end.

Definition message (e : Entry) : string :=
  "🎯 *" +:+ shown (title e) +:+ "*" +:+ newline +:+
  "📍 Source: " +:+ source e +:+ newline +:+
  "🔗 [View Event](" +:+ shown (link e) +:+ ")".

Definition request (env : Env) (e : Entry) : Action :=
  Post ("https://api.telegram.org/bot" +:+ shown (TELEGRAM_BOT_TOKEN env)
        +:+ "/sendMessage")
       (TELEGRAM_CHANNEL_ID env) (message e) "Markdown".

(** The loop of [sendToTelegram] from the post number [i] on: a post that
    throws ends it. *)
Fixpoint send_from (env : Env) (services : Services) (i : nat) (events : list Entry)
    : Run unit :=
  match events with
  | [] => ([], Normal ())
  | e :: rest =>
      run_bind ([request env e], post services i)
        (λ _, send_from env services (S i) rest)
  end.

Definition sendToTelegram (env : Env) (services : Services) (events : list Entry)
    : Run unit :=
  send_from env services 0 events.

(** The body of the script. *)
Definition main (web : Web) (env : Env) (services : Services) : Run unit :=
  run_bind ([], scrapeEvents web)
    (λ events,
      if (0 <? length events)%nat
      then run_bind (updateSheet env services events)
             (λ _, sendToTelegram env services events)
      else ([], Normal ())).
End Script.

(** What a source adds to the events when it is read on its own. *)
Definition contribution (web : Web) (src : Source) : list Entry :=
  match kind src with
  | Rss =>
      match parseURL web (url src) with
      | Normal items =>
          (λ item, {| source := name src; title := item_title item;
                      link := item_link item |}) <$> items
      | Throw _ => []
      end
  | Html selector title_selector link_selector =>
      match axios_get web (url src) with
      | Normal page =>
          omap (λ el,
                 match href_of el link_selector with
                 | Some link =>
                     if decide (text_of el title_selector ≠ EmptyString
                                ∧ link ≠ EmptyString)
                     then Some {| source := name src;
                                  title := Some (text_of el title_selector);
                                  link := Some link |}
                     else None
                 | None => None
                 end) (page selector)
      | Throw _ => []
      end
  end.

Definition is_post (a : Action) : bool :=
  match a with
  | Post _ _ _ _ => true
  | Append _ _ _ => false
  end.

End Legacy.

(** Sample answers for the first script. *)
Module LegacySamples.
Import Legacy.

Definition card : Element := mkElement (λ _, "Hack") (λ _, Some "/h").

(** The feed and Kaggle are down; the Devfolio page holds one card. *)
Definition web : Web :=
  {| parseURL := λ _, Throw (TransportError "feed down");
     axios_get := λ u,
       if String.eqb u "https://devfolio.co/hackathons"
       then Normal (λ _, [card])
       else Throw (TransportError "page down") |}.

Definition entry : Entry :=
  {| source := "Devfolio"; title := Some "Hack"; link := Some "/h" |}.

Definition env : Env :=
  {| TELEGRAM_BOT_TOKEN := Some "token";
     TELEGRAM_CHANNEL_ID := Some "@events";
     GOOGLE_SHEET_ID := Some "sheet" |}.

(** The append to the spreadsheet fails. *)
Definition sheetDown : Services :=
  {| getSheets := Normal (); append := Throw (TransportError "quota");
     post := λ _, Normal (); clock := λ _, 0 |}.

(** The first post to the chat fails. *)
Definition chatDown : Services :=
  {| getSheets := Normal (); append := Normal ();
     post := λ _, Throw (TransportError "chat down"); clock := λ _, 0 |}.

End LegacySamples.

(** * Properties *)

(** ** The tally *)

Lemma tally_foldl (results : list Settled) (allEvents : list Event) (stats : Stats) :
  foldl tally (allEvents, stats) results =
    (allEvents ++ results ≫= contribution,
     mkStats (success stats + length (filter (λ r, contributes r = true) results))
             (failed stats + length (filter (λ r, contributes r = false) results))).
Proof.
  revert allEvents stats.
  induction results as [|result results IH]; intros allEvents [s f].
  - simpl. by rewrite app_nil_r, !Nat.add_0_r.
  - rewrite !filter_cons.
    destruct result as [[|e value]|reason]; cbn [foldl tally length Nat.ltb Nat.leb];
      rewrite IH; cbn [success failed mbind list_bind contribution contributes];
      repeat case_decide; try done; cbn [length];
      rewrite <- ?(assoc_L (++)); do 2 f_equal; lia.
Qed.

Lemma tally_total (results : list Settled) :
  (success (aggregate results).2 + failed (aggregate results).2)%nat = length results.
Proof.
  unfold aggregate. rewrite tally_foldl. simpl.
  induction results as [|r results IH]; [done|].
  destruct (contributes r) eqn:Hr.
  - rewrite filter_cons_True, filter_cons_False by (by rewrite ?Hr). simpl. lia.
  - rewrite filter_cons_False, filter_cons_True by (by rewrite ?Hr). simpl. lia.
Qed.

Lemma aggregate_spec (results : list Settled) :
  aggregate results =
    (results ≫= contribution,
     mkStats (length (filter (λ r, contributes r = true) results))
             (length (filter (λ r, contributes r = false) results))).
Proof. unfold aggregate. by rewrite tally_foldl. Qed.

(** C7: the aggregator appends the events of a settled result and counts
    it as a success exactly when the result is fulfilled with one or more
    events, and counts it as a failure otherwise, whether it is fulfilled
    with no event or rejected; on [A] fulfilled with 3 events, [B] rejected
    and [C] fulfilled with none it gives the 3 events, success 1 and
    failure 2. *)
Theorem aggregate_counts_contributing (results : list Settled) :
  aggregate results =
    (results ≫= contribution,
     mkStats (length (filter (λ r, contributes r = true) results))
             (length (filter (λ r, contributes r = false) results)))
  ∧ (∀ value, contributes (Fulfilled value) = true ↔ (0 < length value)%nat)
  ∧ (∀ reason, contributes (Rejected reason) = false)
  ∧ (∀ e1 e2 e3 reason,
       aggregate [Fulfilled [e1; e2; e3]; Rejected reason; Fulfilled []] =
         ([e1; e2; e3], mkStats 1 2)).
Proof.
  split_and!.
  - unfold aggregate. by rewrite tally_foldl.
  - intros [|e value]; simpl; split; intros; (done || lia).
  - done.
  - done.
Qed.

(** C10: over the six adapters the two counters add up to 6, whatever the
    sources answer. *)
Theorem stats_add_up_to_six `{Host} (w : World) :
  (success (aggregate (allSettled w)).2 + failed (aggregate (allSettled w)).2)%nat = 6%nat.
Proof. by rewrite tally_total. Qed.

(** ** The removal of duplicates *)

Lemma forEach_app {A St} (f : St → A → Completion St) (l1 l2 : list A) (s : St) :
  forEach f (l1 ++ l2) s = forEach f l1 s ≫= forEach f l2.
Proof.
  revert s. induction l1 as [|x l1 IH]; intros s; simpl; [done|].
  destruct (f s x); simpl; auto.
Qed.

Lemma in_a_z_0_9_alphanumeric (c : ascii) : in_a_z_0_9 c = true ↔ alphanumeric c.
Proof.
  unfold in_a_z_0_9, alphanumeric. cbn [nat_of_ascii].
  generalize (nat_of_ascii c). intros n.
  change (nat_of_ascii "a") with 97%nat. change (nat_of_ascii "z") with 122%nat.
  change (nat_of_ascii "0") with 48%nat. change (nat_of_ascii "9") with 57%nat.
  rewrite orb_true_iff, !andb_true_iff, !Nat.leb_le. done.
Qed.

(** The replacement deletes the characters outside the class and keeps the
    others, in their order. *)
Lemma strip_non_alnum_alphanumeric (s : string) :
  String.list_ascii_of_string (strip_non_alnum s)
  = filter alphanumeric (String.list_ascii_of_string s).
Proof.
  induction s as [|c s IH]; [done|].
  cbn [strip_non_alnum String.list_ascii_of_string].
  destruct (in_a_z_0_9 c) eqn:Hc.
  - rewrite filter_cons_True by (by apply in_a_z_0_9_alphanumeric).
    cbn [String.list_ascii_of_string]. by rewrite IH.
  - rewrite filter_cons_False; [done|].
    intros Hin%in_a_z_0_9_alphanumeric. congruence.
Qed.

Section DedupeFacts.
Context `{Host}.

Lemma normalizedTitle_key (e : Event) (k : string) :
  normalizedTitle e = Normal k ↔ titleKey e = Some k.
Proof.
  unfold normalizedTitle, titleKey, title.
  destruct (event_name e); simpl; split; intros; simplify_eq; done.
Qed.

Lemma titled_key (e : Event) : titled e ↔ is_Some (titleKey e).
Proof. unfold titled, titleKey. by rewrite fmap_is_Some. Qed.

Lemma firstOfEachKey_snoc (l : list Event) (e : Event) :
  firstOfEachKey (l ++ [e]) =
    firstOfEachKey l ++ (if decide (titleKey e ∈ titleKey <$> l) then [] else [e]).
Proof.
  unfold firstOfEachKey. rewrite imap_app, omap_app. f_equal.
  - f_equal. apply imap_ext. intros i x Hix. simpl.
    apply lookup_lt_Some in Hix. rewrite take_app_le by lia. done.
  - simpl. rewrite Nat.add_0_r, take_app_length. by case_decide.
Qed.

Lemma firstOfEachKey_subseteq (l : list Event) : firstOfEachKey l ⊆ l.
Proof.
  induction l as [|e l IH] using rev_ind; [done|].
  rewrite firstOfEachKey_snoc. case_decide; set_solver.
Qed.

Lemma firstOfEachKey_sublist (l : list Event) : firstOfEachKey l `sublist_of` l.
Proof.
  induction l as [|e l IH] using rev_ind; [done|].
  rewrite firstOfEachKey_snoc. apply sublist_app; [done|].
  case_decide; [apply sublist_nil_l|done].
Qed.

Lemma firstOfEachKey_keys (l : list Event) (e : Event) :
  e ∈ l → titleKey e ∈ titleKey <$> firstOfEachKey l.
Proof.
  revert e. induction l as [|x l IH] using rev_ind; intros e; [by intros ?%elem_of_nil|].
  rewrite firstOfEachKey_snoc, fmap_app, !elem_of_app, list_elem_of_singleton.
  intros [He| ->]; [by left; apply IH|].
  case_decide as Hin.
  - left. apply list_elem_of_fmap in Hin as (y & Heq & Hy). rewrite Heq. by apply IH.
  - right. simpl. by apply list_elem_of_singleton.
Qed.

Lemma firstOfEachKey_NoDup (l : list Event) : NoDup (titleKey <$> firstOfEachKey l).
Proof.
  induction l as [|e l IH] using rev_ind; [constructor|].
  rewrite firstOfEachKey_snoc. case_decide as Hin.
  - by rewrite app_nil_r.
  - rewrite fmap_app. apply NoDup_app. split_and!; [done| |apply NoDup_singleton].
    intros k Hk Hk'. apply list_elem_of_singleton in Hk' as ->.
    apply Hin. pose proof (firstOfEachKey_subseteq l). set_solver.
Qed.

Lemma firstOfEachKey_id (l : list Event) :
  NoDup (titleKey <$> l) → firstOfEachKey l = l.
Proof.
  induction l as [|e l IH] using rev_ind; [done|].
  rewrite fmap_app, NoDup_app. intros (Hl & Hdisj & _).
  rewrite firstOfEachKey_snoc, IH by done. case_decide as Hin; [|done].
  exfalso. apply (Hdisj _ Hin). set_solver.
Qed.

(** The state of the loop after the events [l]: the first events of each
    key, and the keys seen. *)
Lemma dedupe_loop (l : list Event) :
  Forall titled l →
  ∃ seenTitles : gset string,
    forEach dedupe_step l ([], ∅) = Normal (firstOfEachKey l, seenTitles)
    ∧ ∀ k, k ∈ seenTitles ↔ Some k ∈ titleKey <$> l.
Proof.
  induction l as [|e l IH] using rev_ind; intros Hl.
  - exists ∅. split; [done|]. set_solver.
  - apply Forall_app in Hl as [Hl He]. rewrite Forall_singleton in He.
    destruct (IH Hl) as (seen & Hloop & Hseen).
    apply titled_key in He as [k Hk].
    rewrite forEach_app, Hloop, firstOfEachKey_snoc. simpl.
    rewrite (proj2 (normalizedTitle_key e k) Hk). simpl.
    rewrite Hk. destruct (decide (k ∈ seen)) as [Hin|Hin].
    + exists seen. rewrite decide_True by (by apply Hseen).
      rewrite app_nil_r. split; [done|].
      intros k'. rewrite fmap_app, elem_of_app, <- Hseen. simpl.
      rewrite list_elem_of_singleton. rewrite Hk. naive_solver.
    + exists ({[k]} ∪ seen). rewrite decide_False by (by rewrite <- Hseen).
      split; [done|].
      intros k'. rewrite fmap_app, elem_of_app, <- Hseen. simpl.
      rewrite list_elem_of_singleton, Hk. set_solver.
Qed.

Lemma dedupe_loop_titled (l : list Event) s s' :
  forEach dedupe_step l s = Normal s' → Forall titled l.
Proof.
  revert s. induction l as [|e l IH]; intros [u seen]; simpl; [by constructor|].
  destruct (normalizedTitle e) as [k|err] eqn:Hk; simpl; [|done].
  intros Hloop. constructor.
  - apply titled_key. apply normalizedTitle_key in Hk. by rewrite Hk.
  - case_decide; eauto.
Qed.

Lemma removeDuplicates_titled (l : list Event) :
  Forall titled l → removeDuplicates l = Normal (firstOfEachKey l).
Proof.
  intros Hl. destruct (dedupe_loop l Hl) as (seen & Hloop & _).
  unfold removeDuplicates. by rewrite Hloop.
Qed.

Lemma removeDuplicates_Normal (l u : list Event) :
  removeDuplicates l = Normal u → Forall titled l ∧ u = firstOfEachKey l.
Proof.
  intros Hu. assert (Forall titled l) as Hl.
  { unfold removeDuplicates in Hu.
    destruct (forEach dedupe_step l ([], ∅)) eqn:Hloop; [|done].
    by eapply dedupe_loop_titled. }
  split; [done|]. rewrite removeDuplicates_titled in Hu by done. congruence.
Qed.
End DedupeFacts.

(** C3: on events whose titles are strings the deduplication returns the
    events that are the first of their key in input order. The key of a
    title is its lowercase form with every character outside [a-z0-9]
    deleted: the lowercase letters and the digits of the lowercased title,
    in their order. A later event with a key already met is dropped
    whatever its source, and no two events of the output share a key. *)
Theorem removeDuplicates_keeps_first_of_each_key `{Host} (allEvents : list Event) :
  Forall titled allEvents →
  removeDuplicates allEvents = Normal (firstOfEachKey allEvents)
  ∧ NoDup (titleKey <$> firstOfEachKey allEvents)
  ∧ (∀ e s, event_name e = JSString s →
            ∃ key, titleKey e = Some key
                   ∧ String.list_ascii_of_string key
                     = filter alphanumeric (String.list_ascii_of_string (toLowerCase s)))
  ∧ firstOfEachKey allEvents `sublist_of` allEvents
  ∧ (∀ e, e ∈ allEvents → titleKey e ∈ titleKey <$> firstOfEachKey allEvents).
Proof.
  intros Hl. split_and!.
  - by apply removeDuplicates_titled.
  - apply firstOfEachKey_NoDup.
  - intros e s Hs. eexists. split.
    + unfold titleKey, title. by rewrite Hs.
    + apply strip_non_alnum_alphanumeric.
  - apply firstOfEachKey_sublist.
  - apply firstOfEachKey_keys.
Qed.

(** C4: deduplicating the result of a deduplication changes nothing:
    [dedupe(dedupe(X)) = dedupe(X)]. When the first pass returns a list
    the second returns the same list, which is the case whenever the
    titles are strings; when the first pass throws, so does the
    composition. *)
Theorem removeDuplicates_idempotent `{Host} (allEvents : list Event) :
  removeDuplicates allEvents ≫= removeDuplicates = removeDuplicates allEvents
  ∧ (∀ uniqueEvents, removeDuplicates allEvents = Normal uniqueEvents →
                     removeDuplicates uniqueEvents = Normal uniqueEvents)
  ∧ (Forall titled allEvents →
     ∃ uniqueEvents, removeDuplicates allEvents = Normal uniqueEvents).
Proof.
  assert (∀ u, removeDuplicates allEvents = Normal u → removeDuplicates u = Normal u)
    as Hfix.
  { intros u Hu. apply removeDuplicates_Normal in Hu as [Hl ->].
    rewrite removeDuplicates_titled.
    - f_equal. apply firstOfEachKey_id, firstOfEachKey_NoDup.
    - pose proof (firstOfEachKey_subseteq allEvents) as Hsub.
      rewrite Forall_forall in Hl |- *. intros e He. apply Hl. set_solver. }
  split_and!; [|done|].
  - destruct (removeDuplicates allEvents) as [u|err] eqn:Hu; simpl; [|done].
    by apply Hfix.
  - intros Hl. eexists. by apply removeDuplicates_titled.
Qed.

(** ** The sort *)

Lemma StronglySorted_lookup {A} (R : relation A) (l : list A) i j x y :
  StronglySorted R l → (i < j)%nat → l !! i = Some x → l !! j = Some y → R x y.
Proof.
  intros Hl. revert i j. induction Hl as [|z l Hl IH Hz]; intros i j Hij Hi Hj.
  - by rewrite lookup_nil in Hi.
  - destruct j as [|j]; [lia|]. destruct i as [|i]; simpl in *.
    + simplify_eq. eapply Forall_lookup_1; eauto.
    + eapply (IH i j); eauto with lia.
Qed.

Section ArraySortFacts.
Context {A : Type} (comparefn : A → A → Number).

Notation before x y := (SortCompare comparefn x y < 0).

Lemma insert_pivot_Permutation (sorted : list A) (pivot : A) :
  insert_pivot comparefn sorted pivot ≡ₚ sorted ++ [pivot].
Proof.
  unfold insert_pivot.
  set (left := insertion_point _ _ _ _ _ _).
  rewrite <- (take_drop left sorted) at 3.
  rewrite <- (assoc_L (++)). f_equiv.
  rewrite <- Permutation_cons_append. done.
Qed.

Lemma BinaryInsertionSort_Permutation (sorted rest : list A) :
  BinaryInsertionSort comparefn sorted rest ≡ₚ sorted ++ rest.
Proof.
  unfold BinaryInsertionSort. revert sorted.
  induction rest as [|pivot rest IH]; intros sorted; simpl.
  - by rewrite app_nil_r.
  - rewrite IH, insert_pivot_Permutation, <- (assoc_L (++)). done.
Qed.

Lemma run_tail_le (isDescending : bool) (previous : A) (rest : list A) :
  (run_tail comparefn isDescending previous rest ≤ length rest)%nat.
Proof.
  revert previous. induction rest as [|x rest IH]; intros previous; simpl; [lia|].
  destruct (if isDescending then _ else _); [lia|].
  specialize (IH x). lia.
Qed.

Lemma CountAndMakeRun_Permutation (work : list A) :
  (CountAndMakeRun comparefn work).2 ≡ₚ work.
Proof.
  destruct work as [|x0 [|x1 rest]]; [done..|].
  unfold CountAndMakeRun. destruct (_ <? 0); [|done].
  cbn [snd]. by rewrite reverse_Permutation, take_drop.
Qed.

Lemma Array_sort_Permutation (array : list A) :
  Array_sort comparefn array ≡ₚ array.
Proof.
  unfold Array_sort. destruct (_ <? 2)%nat; [done|].
  pose proof (CountAndMakeRun_Permutation array) as Hperm.
  destruct (CountAndMakeRun comparefn array) as [runLength work]; simpl in Hperm.
  by rewrite BinaryInsertionSort_Permutation, take_drop.
Qed.

(** A list that is already in order: no element goes before its
    predecessor. *)
Lemma run_tail_ascending (previous : A) (rest : list A) :
  Sorted (λ x y, ¬ before y x) (previous :: rest) →
  run_tail comparefn false previous rest = length rest.
Proof.
  revert previous. induction rest as [|x rest IH]; intros previous Hs; simpl; [done|].
  apply Sorted_inv in Hs as [Hs Hhd]. apply HdRel_inv in Hhd.
  destruct (Z.ltb_spec (SortCompare comparefn x previous) 0); [done|].
  by rewrite IH.
Qed.

Lemma Array_sort_ascending (array : list A) :
  Sorted (λ x y, ¬ before y x) array → Array_sort comparefn array = array.
Proof.
  intros Hs. unfold Array_sort.
  destruct array as [|x0 [|x1 rest]]; [done..|].
  cbn [length Nat.ltb Nat.leb CountAndMakeRun].
  pose proof Hs as Hs'. apply Sorted_inv in Hs' as [Hs' Hhd]. apply HdRel_inv in Hhd.
  destruct (Z.ltb_spec (SortCompare comparefn x1 x0) 0); [done|].
  rewrite run_tail_ascending by done.
  change (2 + length rest)%nat with (length (x0 :: x1 :: rest)).
  by rewrite take_ge, drop_all.
Qed.
End ArraySortFacts.

(** The binary search has ended once [fuel] covers [right - left]: more
    fuel gives the same place. *)
Lemma insertion_point_enough_fuel {A} (comparefn : A → A → Number) (pivot : A)
    (sorted : list A) (fuel fuel' left right : nat) :
  (right - left ≤ fuel)%nat → (fuel ≤ fuel')%nat →
  insertion_point comparefn pivot sorted fuel' left right
  = insertion_point comparefn pivot sorted fuel left right.
Proof.
  revert fuel' left right.
  induction fuel as [|fuel IH]; intros fuel' left right Hfuel Hle.
  { destruct fuel' as [|fuel']; simpl; [done|].
    by destruct (Nat.ltb_spec left right); [lia|]. }
  destruct fuel' as [|fuel']; [lia|]. simpl.
  destruct (Nat.ltb_spec left right) as [Hlt|]; [|done].
  assert (Nat.div2 (right - left) < right - left)%nat as Hhalf
    by (apply Nat.lt_div2; lia).
  revert Hhalf. generalize (Nat.div2 (right - left)). intros half Hhalf.
  destruct (sorted !! (left + half)%nat); [|done].
  destruct (_ <? 0); apply IH; lia.
Qed.

Lemma filter_none {A} (Q : A → Prop) `{!∀ x, Decision (Q x)} (l : list A) :
  Forall (λ x, ¬ Q x) l → filter Q l = [].
Proof.
  induction 1 as [|x l Hx _ IH]; [done|]. by rewrite filter_cons_False.
Qed.

Lemma Sorted_impl {A} (R1 R2 : relation A) (l : list A) :
  (∀ x y, R1 x y → R2 x y) → Sorted R1 l → Sorted R2 l.
Proof.
  intros HR. induction 1 as [|x l Hl IH Hhd]; constructor; [done|].
  destruct Hhd; constructor; auto.
Qed.

Lemma Sorted_impl_Forall {A} (P : A → Prop) (R1 R2 : relation A) (l : list A) :
  (∀ x y, P x → P y → R1 x y → R2 x y) → Forall P l → Sorted R1 l → Sorted R2 l.
Proof.
  intros HR HP Hs. induction Hs as [|x l Hl IH Hhd]; [constructor|].
  apply Forall_cons in HP as [Hx HP]. constructor; [by apply IH|].
  destruct Hhd as [|y l Hxy]; constructor.
  apply Forall_cons in HP as [Hy _]. by apply HR.
Qed.

(** The sort under a comparator that, on the elements satisfying [P],
    follows a total order of ranks: an element goes before another only
    when its rank is not greater, and stays behind it only when its rank
    is not smaller. The result is in order of rank, and the elements of a
    rank within which the comparator never says "before" keep their
    order. *)
Section RankedSort.
Context {A K : Type} (comparefn : A → A → Number).
Context (rank : A → K) (le : relation K).
Context `{!Transitive le, !Total le, !AntiSymm (=) le, !EqDecision K}.
Context (P : A → Prop).

Notation before x y := (SortCompare comparefn x y < 0).
Notation inOrder := (λ x y, le (rank x) (rank y)).
Notation ranked c := (λ x, rank x = c).
Notation tied c :=
  (∀ x y, P x → P y → rank x = c → rank y = c → ¬ before x y).

Hypothesis before_le : ∀ x y, P x → P y → before x y → le (rank x) (rank y).
Hypothesis not_before_le : ∀ x y, P x → P y → ¬ before x y → le (rank y) (rank x).

#[local] Instance inOrder_trans : Transitive inOrder.
Proof. intros x y z. apply transitivity. Qed.

#[local] Instance flip_inOrder_trans : Transitive (flip inOrder).
Proof. intros x y z Hxy Hyz. unfold flip in *. by transitivity (rank y). Qed.

Lemma rank_le_refl (k : K) : le k k.
Proof. by destruct (total le k k). Qed.

(** An element that goes before one of its own rank's betters is not of
    their rank, when the comparator ties within that rank. *)
Lemma before_other_rank (pivot m x : A) :
  P pivot → P m → tied (rank pivot) →
  before pivot m → le (rank m) (rank x) → rank x ≠ rank pivot.
Proof.
  intros Hp Hm Htied Hb Hmx Heq.
  apply (Htied pivot m); [done..| |done].
  apply (anti_symm le); [|by apply before_le].
  rewrite <- Heq. done.
Qed.

Lemma insertion_point_spec (pivot : A) (sorted : list A) (fuel left right : nat) :
  P pivot → Forall P sorted → StronglySorted inOrder sorted →
  (left ≤ right ≤ length sorted)%nat → (right - left ≤ fuel)%nat →
  (∀ i x, (i < left)%nat → sorted !! i = Some x → le (rank x) (rank pivot)) →
  (∀ i x, (right ≤ i)%nat → sorted !! i = Some x →
          le (rank pivot) (rank x) ∧ (tied (rank pivot) → rank x ≠ rank pivot)) →
  ∃ k, insertion_point comparefn pivot sorted fuel left right = k
    ∧ (k ≤ length sorted)%nat
    ∧ (∀ i x, (i < k)%nat → sorted !! i = Some x → le (rank x) (rank pivot))
    ∧ (∀ i x, (k ≤ i)%nat → sorted !! i = Some x →
              le (rank pivot) (rank x) ∧ (tied (rank pivot) → rank x ≠ rank pivot)).
Proof.
  intros Hp HP Hs. revert left right.
  induction fuel as [|fuel IH]; intros left right Hlr Hfuel Hlow Hhigh.
  { exists left. simpl. split_and!; [done|lia|done|].
    intros i x ?. apply Hhigh. lia. }
  simpl. destruct (Nat.ltb_spec left right) as [Hlt|Hge]; last first.
  { exists left. split_and!; [done|lia|done|].
    intros i x ?. apply Hhigh. lia. }
  set (mid := (left + Nat.div2 (right - left))%nat).
  assert (left ≤ mid < right)%nat as Hmid.
  { assert (Nat.div2 (right - left) < right - left)%nat as Hhalf
      by (apply Nat.lt_div2; lia).
    subst mid. revert Hhalf. generalize (Nat.div2 (right - left)). lia. }
  clearbody mid.
  destruct (lookup_lt_is_Some_2 sorted mid) as [m Hm]; [lia|].
  rewrite Hm.
  assert (P m) as HPm by (by eapply Forall_lookup_1).
  destruct (Z.ltb_spec (SortCompare comparefn pivot m) 0) as [Hb|Hb].
  - apply IH; [lia|lia|done|].
    intros i x Hi Hx.
    assert (le (rank m) (rank x)) as Hmx.
    { destruct (decide (i = mid)) as [->|]; [simplify_eq; apply rank_le_refl|].
      apply (StronglySorted_lookup inOrder sorted mid i); [done|lia|done..]. }
    split.
    + transitivity (rank m); [by apply before_le|done].
    + intros Htied. by eapply before_other_rank.
  - apply IH; [lia|lia| |done].
    intros i x Hi Hx.
    assert (le (rank m) (rank pivot)) as Hmp by (apply not_before_le; [done..|lia]).
    destruct (decide (i = mid)) as [->|]; [by simplify_eq|].
    transitivity (rank m); [|done].
    apply (StronglySorted_lookup inOrder sorted i mid); [done|lia|done..].
Qed.

Lemma insert_pivot_spec (sorted : list A) (pivot : A) :
  P pivot → Forall P sorted → StronglySorted inOrder sorted →
  StronglySorted inOrder (insert_pivot comparefn sorted pivot)
  ∧ ∀ c, tied c →
         filter (ranked c) (insert_pivot comparefn sorted pivot)
         = filter (ranked c) (sorted ++ [pivot]).
Proof.
  intros Hp HP Hs. unfold insert_pivot.
  destruct (insertion_point_spec pivot sorted (length sorted) 0 (length sorted))
    as (k & -> & Hk & Hlow & Hhigh); [done..|lia|lia|intros; lia| |].
  { intros i x Hi Hx. apply lookup_lt_Some in Hx. lia. }
  split.
  - rewrite <- (take_drop k sorted) in Hs.
    apply StronglySorted_app in Hs as (Hcross & Htake & Hrest).
    apply StronglySorted_app_2; [|done|].
    + intros x1 x2 Hx1 [->|Hx2]%elem_of_cons; [|by apply Hcross].
      apply list_elem_of_lookup in Hx1 as [i Hi].
      apply lookup_take_Some in Hi as [Hi ?]. by eapply Hlow.
    + constructor; [done|].
      apply Forall_lookup. intros j x. rewrite lookup_drop.
      intros Hx. apply (Hhigh (k + j)%nat x); [lia|done].
  - intros c Htied.
    pose proof (f_equal (filter (ranked c)) (take_drop k sorted)) as Hsplit.
    rewrite filter_app in Hsplit.
    rewrite !filter_app, filter_cons, (filter_cons _ pivot []), filter_nil, <- Hsplit.
    destruct (decide (rank pivot = c)) as [<-|]; [|by rewrite !app_nil_r].
    rewrite (filter_none _ (drop k sorted)); [by rewrite app_nil_r|].
    apply Forall_lookup. intros j x. rewrite lookup_drop.
    intros Hx. apply (Hhigh (k + j)%nat x); [lia|done..].
Qed.

Lemma BinaryInsertionSort_spec (sorted rest : list A) :
  Forall P sorted → Forall P rest → StronglySorted inOrder sorted →
  StronglySorted inOrder (BinaryInsertionSort comparefn sorted rest)
  ∧ ∀ c, tied c →
         filter (ranked c) (BinaryInsertionSort comparefn sorted rest)
         = filter (ranked c) (sorted ++ rest).
Proof.
  unfold BinaryInsertionSort. revert sorted.
  induction rest as [|pivot rest IH]; intros sorted HP Hrest Hs; simpl.
  { by rewrite app_nil_r. }
  apply Forall_cons in Hrest as [Hp Hrest].
  destruct (insert_pivot_spec sorted pivot) as [Hs' Hf]; [done..|].
  destruct (IH (insert_pivot comparefn sorted pivot)) as [Hs'' Hf'']; [|done..|].
  { rewrite insert_pivot_Permutation. apply Forall_app. by repeat constructor. }
  split; [done|]. intros c Htied.
  by rewrite Hf'', filter_app, Hf, <- filter_app, <- (assoc_L (++)).
Qed.

Lemma run_rising (previous : A) (rest : list A) :
  P previous → Forall P rest →
  Sorted inOrder (previous :: take (run_tail comparefn false previous rest) rest).
Proof.
  revert previous. induction rest as [|x rest IH]; intros previous Hp Hrest; simpl.
  { by repeat constructor. }
  apply Forall_cons in Hrest as [Hx Hrest].
  destruct (Z.ltb_spec (SortCompare comparefn x previous) 0) as [Hb|Hb]; simpl.
  { by repeat constructor. }
  constructor; [by apply IH|]. constructor. apply not_before_le; [done..|lia].
Qed.

(** In a descending run every element goes before its predecessor. *)
Lemma run_falling (previous : A) (rest : list A) :
  Sorted (λ x y, before y x)
    (previous :: take (run_tail comparefn true previous rest) rest).
Proof.
  revert previous. induction rest as [|x rest IH]; intros previous; simpl.
  { by repeat constructor. }
  destruct (Z.leb_spec 0 (SortCompare comparefn x previous)) as [Hb|Hb]; simpl.
  { by repeat constructor. }
  constructor; [by apply IH|]. by constructor.
Qed.

Lemma falling_inOrder (l : list A) :
  Forall P l → Sorted (λ x y, before y x) l → StronglySorted (flip inOrder) l.
Proof.
  intros HP Hs. apply Sorted_StronglySorted; [apply _|].
  eapply (Sorted_impl_Forall P); [|done..].
  intros x y Hx Hy Hb. by apply before_le.
Qed.

(** A descending run holds at most one element of a rank in which the
    comparator ties, so reversing it keeps the order within that rank. *)
Lemma falling_filter (l : list A) (c : K) :
  Forall P l → Sorted (λ x y, before y x) l → tied c →
  reverse (filter (ranked c) l) = filter (ranked c) l.
Proof.
  intros HP Hs Htied. induction Hs as [|x l Hl IH Hhd]; [done|].
  apply Forall_cons in HP as [Hx HP].
  rewrite filter_cons. destruct (decide (rank x = c)) as [Hc|]; [|by apply IH].
  rewrite filter_none; [done|].
  destruct Hhd as [|x1 l' Hb]; [constructor|].
  pose proof (falling_inOrder _ HP Hl) as Hfall.
  apply StronglySorted_cons in Hfall as [Hrest _].
  apply Forall_cons in HP as [Hx1 HP].
  assert (rank x1 ≠ c) as Hne.
  { intros Hc1. by apply (Htied x1 x). }
  constructor; [done|].
  apply Forall_forall. intros y Hy Hcy.
  rewrite Forall_forall in Hrest. specialize (Hrest y Hy). unfold flip in Hrest.
  apply Hne. apply (anti_symm le).
  - rewrite <- Hc. by apply before_le.
  - by rewrite <- Hcy.
Qed.

Lemma CountAndMakeRun_spec (work : list A) :
  Forall P work →
  let '(runLength, work') := CountAndMakeRun comparefn work in
  StronglySorted inOrder (take runLength work')
  ∧ (∀ c, tied c →
          filter (ranked c) (take runLength work')
          = filter (ranked c) (take runLength work))
  ∧ drop runLength work' = drop runLength work.
Proof.
  intros HP. destruct work as [|x0 [|x1 rest]].
  { simpl. split_and!; [constructor|done|done]. }
  { simpl. split_and!; [by repeat constructor|done|done]. }
  pose proof HP as HP'.
  apply Forall_cons in HP' as [H0 HP']. apply Forall_cons in HP' as [H1 HP'].
  unfold CountAndMakeRun.
  destruct (Z.ltb_spec (SortCompare comparefn x1 x0) 0) as [Hb|Hb].
  - pose proof (run_tail_le comparefn true x1 rest) as Hlen.
    set (t := run_tail comparefn true x1 rest) in *.
    change (2 + t)%nat with (S (S t)). cbn [take].
    assert (Sorted (λ x y, before y x) (x0 :: x1 :: take t rest)) as Hfall.
    { constructor; [apply run_falling|]. by constructor. }
    assert (Forall P (x0 :: x1 :: take t rest)) as HPrun.
    { repeat (apply Forall_cons_2; [done|]). by apply Forall_take. }
    assert (length (reverse (x0 :: x1 :: take t rest)) = S (S t)) as Hrev.
    { rewrite length_reverse. simpl. rewrite length_take. lia. }
    rewrite take_app_length', drop_app_length' by done.
    split_and!; [| |done].
    + apply Sorted_StronglySorted; [apply _|].
      eapply Sorted_impl; [|apply Sorted_reverse, StronglySorted_Sorted,
                             (falling_inOrder _ HPrun Hfall)].
      by intros x y.
    + intros c Htied. rewrite filter_reverse. by apply falling_filter.
  - set (t := run_tail comparefn false x1 rest).
    split_and!; [|done|done].
    change (2 + t)%nat with (S (S t)). cbn [take].
    apply Sorted_StronglySorted; [apply _|].
    constructor; [by apply run_rising|]. constructor.
    apply not_before_le; [done..|lia].
Qed.

Lemma Array_sort_spec (array : list A) :
  Forall P array →
  StronglySorted inOrder (Array_sort comparefn array)
  ∧ ∀ c, tied c →
         filter (ranked c) (Array_sort comparefn array) = filter (ranked c) array.
Proof.
  intros HP. unfold Array_sort.
  destruct (Nat.ltb_spec (length array) 2) as [Hlen|Hlen].
  { destruct array as [|x [|y rest]]; simpl in Hlen; [..|lia];
      split; by repeat constructor. }
  pose proof (CountAndMakeRun_spec array HP) as Hrun.
  pose proof (CountAndMakeRun_Permutation comparefn array) as Hperm.
  destruct (CountAndMakeRun comparefn array) as [runLength work].
  destruct Hrun as (Hs & Hf & Hdrop). simpl in Hperm.
  assert (Forall P work) as HP' by (by rewrite Hperm).
  destruct (BinaryInsertionSort_spec (take runLength work) (drop runLength work))
    as [Hs' Hf']; [by apply Forall_take|by apply Forall_drop|done|].
  split; [done|]. intros c Htied.
  rewrite Hf', filter_app, Hf, Hdrop, <- filter_app by done. by rewrite take_drop.
Qed.
End RankedSort.

(** ** The sort under a comparator that may throw *)

(** Putting [p] at index [k] of a list in order keeps it in order when [p]
    fits between its two neighbours. *)
Lemma Sorted_insert {A} (R : relation A) (l : list A) (k : nat) (p : A) :
  Sorted R l → (k ≤ length l)%nat →
  (∀ i x, k = S i → l !! i = Some x → R x p) →
  (∀ x, l !! k = Some x → R p x) →
  Sorted R (take k l ++ p :: drop k l).
Proof.
  intros Hs. revert k. induction Hs as [|y l Hl IH Hhd]; intros k Hk Hlow Hhigh.
  { simpl in Hk. assert (k = 0%nat) as -> by lia. simpl. by repeat constructor. }
  destruct k as [|k]; simpl.
  { constructor; [by constructor|]. constructor. by apply Hhigh. }
  simpl in Hk. constructor.
  - apply IH; [lia| |done].
    intros i x -> Hx. by apply (Hlow (S i)).
  - destruct k as [|k]; simpl.
    + constructor. by apply (Hlow 0%nat).
    + destruct Hhd as [|z l' Hyz]; simpl; [simpl in Hk; lia|by constructor].
Qed.

Section ArraySortThrowingFacts.
Context {A : Type} (comparefn : A → A → Completion Number).

Notation total := (order_or_tie comparefn).
Notation compare := (SortCompare_throwing comparefn).

Lemma SortCompare_throwing_Normal (x y : A) (order : Z) :
  compare x y = Normal order → SortCompare total x y = order.
Proof.
  unfold SortCompare_throwing, SortCompare, order_or_tie.
  destruct (comparefn x y) as [[v|]|]; simpl; congruence.
Qed.

(** *** A sort that returns is the sort by the comparator's answers *)

Lemma run_tail_throwing_Normal (isDescending : bool) (previous : A) (rest : list A)
    (n : nat) :
  run_tail_throwing comparefn isDescending previous rest = Normal n →
  run_tail total isDescending previous rest = n.
Proof.
  revert previous n.
  induction rest as [|x rest IH]; intros previous n; simpl; [congruence|].
  destruct (compare x previous) as [order|] eqn:Hc; simpl; [|done].
  rewrite (SortCompare_throwing_Normal _ _ _ Hc).
  destruct (if isDescending then _ else _); [congruence|].
  destruct (run_tail_throwing comparefn isDescending x rest) as [t|] eqn:Ht;
    simpl; [|done].
  rewrite (IH _ _ Ht). congruence.
Qed.

Lemma CountAndMakeRun_throwing_Normal (work : list A) (run : nat * list A) :
  CountAndMakeRun_throwing comparefn work = Normal run →
  CountAndMakeRun total work = run.
Proof.
  destruct work as [|x0 [|x1 rest]]; simpl; [congruence..|].
  destruct (compare x1 x0) as [order|] eqn:Hc; simpl; [|done].
  rewrite (SortCompare_throwing_Normal _ _ _ Hc).
  destruct (run_tail_throwing comparefn (order <? 0) x1 rest) as [t|] eqn:Ht;
    simpl; [|done].
  rewrite (run_tail_throwing_Normal _ _ _ _ Ht). congruence.
Qed.

Lemma insertion_point_throwing_Normal (pivot : A) (sorted : list A)
    (fuel left right k : nat) :
  insertion_point_throwing comparefn pivot sorted fuel left right = Normal k →
  insertion_point total pivot sorted fuel left right = k.
Proof.
  revert left right.
  induction fuel as [|fuel IH]; intros left right; simpl; [congruence|].
  destruct (left <? right)%nat; [|congruence].
  destruct (sorted !! _) as [m|]; [|congruence].
  destruct (compare pivot m) as [order|] eqn:Hc; simpl; [|done].
  rewrite (SortCompare_throwing_Normal _ _ _ Hc).
  destruct (order <? 0); apply IH.
Qed.

Lemma insert_pivot_throwing_Normal (sorted : list A) (pivot : A) (out : list A) :
  insert_pivot_throwing comparefn sorted pivot = Normal out →
  insert_pivot total sorted pivot = out.
Proof.
  unfold insert_pivot_throwing, insert_pivot.
  destruct (insertion_point_throwing _ _ _ _ _ _) as [k|] eqn:Hk; simpl; [|done].
  rewrite (insertion_point_throwing_Normal _ _ _ _ _ _ Hk). congruence.
Qed.

Lemma BinaryInsertionSort_throwing_Normal (sorted rest out : list A) :
  BinaryInsertionSort_throwing comparefn sorted rest = Normal out →
  BinaryInsertionSort total sorted rest = out.
Proof.
  unfold BinaryInsertionSort_throwing, BinaryInsertionSort. revert sorted.
  induction rest as [|pivot rest IH]; intros sorted; simpl; [congruence|].
  destruct (insert_pivot_throwing comparefn sorted pivot) as [sorted'|] eqn:Hp;
    simpl; [|done].
  rewrite (insert_pivot_throwing_Normal _ _ _ Hp). apply IH.
Qed.

Lemma Array_sort_throwing_Normal (array out : list A) :
  Array_sort_throwing comparefn array = Normal out → Array_sort total array = out.
Proof.
  unfold Array_sort_throwing, Array_sort.
  destruct (length array <? 2)%nat; [congruence|].
  destruct (CountAndMakeRun_throwing comparefn array) as [[runLength work]|] eqn:Hrun;
    simpl; [|done].
  rewrite (CountAndMakeRun_throwing_Normal _ _ Hrun).
  apply BinaryInsertionSort_throwing_Normal.
Qed.

(** *** The sort returns when the comparator does *)

Section Returns.
Context (P : A → Prop).
Hypothesis comparefn_returns : ∀ x y, P x → P y → ∃ order, comparefn x y = Normal order.

Lemma SortCompare_throwing_returns (x y : A) :
  P x → P y → ∃ order, compare x y = Normal order.
Proof.
  intros Hx Hy. unfold SortCompare_throwing.
  destruct (comparefn_returns x y Hx Hy) as [order ->]. simpl. eauto.
Qed.

Lemma run_tail_throwing_returns (isDescending : bool) (previous : A) (rest : list A) :
  P previous → Forall P rest →
  ∃ n, run_tail_throwing comparefn isDescending previous rest = Normal n.
Proof.
  revert previous. induction rest as [|x rest IH]; intros previous Hp Hrest; simpl.
  { eauto. }
  apply Forall_cons in Hrest as [Hx Hrest].
  destruct (SortCompare_throwing_returns x previous Hx Hp) as [order ->]. simpl.
  destruct (if isDescending then _ else _); [eauto|].
  destruct (IH x Hx Hrest) as [n ->]. simpl. eauto.
Qed.

Lemma insertion_point_throwing_returns (pivot : A) (sorted : list A)
    (fuel left right : nat) :
  P pivot → Forall P sorted →
  ∃ k, insertion_point_throwing comparefn pivot sorted fuel left right = Normal k.
Proof.
  intros Hp HP. revert left right.
  induction fuel as [|fuel IH]; intros left right; simpl; [eauto|].
  destruct (left <? right)%nat; [|eauto].
  destruct (sorted !! _) as [m|] eqn:Hm; [|eauto].
  destruct (SortCompare_throwing_returns pivot m) as [order ->];
    [done|by eapply Forall_lookup_1|].
  simpl. destruct (order <? 0); apply IH.
Qed.

Lemma Array_sort_throwing_returns (array : list A) :
  Forall P array →
  Array_sort_throwing comparefn array = Normal (Array_sort total array).
Proof.
  intros HP.
  assert (∃ out, Array_sort_throwing comparefn array = Normal out) as [out Hout].
  { unfold Array_sort_throwing. destruct (length array <? 2)%nat; [eauto|].
    assert (∃ run, CountAndMakeRun_throwing comparefn array = Normal run)
      as [[runLength work] Hrun].
    { destruct array as [|x0 [|x1 rest]]; simpl; [eauto..|].
      apply Forall_cons in HP as [H0 HP]. apply Forall_cons in HP as [H1 HP].
      destruct (SortCompare_throwing_returns x1 x0 H1 H0) as [order ->]. simpl.
      destruct (run_tail_throwing_returns (order <? 0) x1 rest H1 HP) as [n ->].
      simpl. eauto. }
    rewrite Hrun. simpl.
    apply CountAndMakeRun_throwing_Normal in Hrun.
    pose proof (CountAndMakeRun_Permutation total array) as Hperm.
    rewrite Hrun in Hperm. simpl in Hperm.
    assert (Forall P work) as HP' by (by rewrite Hperm).
    assert (Forall P (take runLength work)) as Hsorted by (by apply Forall_take).
    assert (Forall P (drop runLength work)) as Hrest by (by apply Forall_drop).
    revert Hsorted Hrest. generalize (take runLength work) (drop runLength work).
    intros sorted rest. revert sorted. unfold BinaryInsertionSort_throwing.
    induction rest as [|pivot rest IH]; intros sorted Hsorted Hrest; simpl; [eauto|].
    apply Forall_cons in Hrest as [Hp Hrest].
    destruct (insertion_point_throwing_returns pivot sorted (length sorted) 0
                (length sorted) Hp Hsorted) as [k Hk].
    assert (insert_pivot_throwing comparefn sorted pivot
            = Normal (take k sorted ++ pivot :: drop k sorted)) as ->
      by (unfold insert_pivot_throwing; by rewrite Hk).
    simpl.
    apply IH; [|done].
    rewrite <- (take_drop k sorted) in Hsorted.
    apply Forall_app in Hsorted as [Htake Hdrop].
    apply Forall_app. split; [done|by constructor]. }
  rewrite Hout. f_equal. symmetry. by apply Array_sort_throwing_Normal.
Qed.
End Returns.

(** *** An array in place is returned as it is *)

Lemma run_tail_throwing_in_place (previous : A) (rest : list A) :
  in_place comparefn (previous :: rest) →
  run_tail_throwing comparefn false previous rest = Normal (length rest).
Proof.
  revert previous. induction rest as [|x rest IH]; intros previous Hs; simpl; [done|].
  apply Sorted_inv in Hs as [Hs Hhd]. apply HdRel_inv in Hhd as (order & -> & Hge).
  simpl. destruct (Z.ltb_spec order 0); [done|].
  by rewrite IH.
Qed.

Lemma Array_sort_throwing_in_place (array : list A) :
  in_place comparefn array → Array_sort_throwing comparefn array = Normal array.
Proof.
  intros Hs. unfold Array_sort_throwing.
  destruct array as [|x0 [|x1 rest]]; [done..|].
  cbn [length Nat.ltb Nat.leb CountAndMakeRun_throwing].
  pose proof Hs as Hs'. apply Sorted_inv in Hs' as [Hs' Hhd].
  apply HdRel_inv in Hhd as (order & -> & Hge). simpl.
  destruct (Z.ltb_spec order 0); [done|].
  rewrite run_tail_throwing_in_place by done. simpl.
  unfold BinaryInsertionSort_throwing.
  change (S (S (length rest))) with (length (x0 :: x1 :: rest)).
  by rewrite take_ge, drop_all.
Qed.

(** *** The result of the sort is in place

    when an element that the comparator sends before another stays behind
    it the other way round. The search for the place of a pivot ends
    between an element the pivot stays behind and one it goes before. *)

Section InPlace.
Hypothesis goes_before_stays : ∀ x y, goes_before comparefn x y → stays_behind comparefn x y.

Lemma insertion_point_throwing_spec (pivot : A) (sorted : list A)
    (fuel left right k : nat) :
  (left ≤ right ≤ length sorted)%nat → (right - left ≤ fuel)%nat →
  (∀ i x, left = S i → sorted !! i = Some x → stays_behind comparefn x pivot) →
  (∀ x, sorted !! right = Some x → goes_before comparefn pivot x) →
  insertion_point_throwing comparefn pivot sorted fuel left right = Normal k →
  (k ≤ length sorted)%nat
  ∧ (∀ i x, k = S i → sorted !! i = Some x → stays_behind comparefn x pivot)
  ∧ (∀ x, sorted !! k = Some x → goes_before comparefn pivot x).
Proof.
  revert left right.
  induction fuel as [|fuel IH]; intros left right Hlr Hfuel Hlow Hhigh; simpl.
  { intros [= <-]. assert (left = right) as -> by lia. split_and!; [lia|done..]. }
  destruct (Nat.ltb_spec left right) as [Hlt|Hge]; last first.
  { intros [= <-]. assert (left = right) as -> by lia. split_and!; [lia|done..]. }
  set (mid := (left + Nat.div2 (right - left))%nat).
  assert (left ≤ mid < right)%nat as Hmid.
  { assert (Nat.div2 (right - left) < right - left)%nat as Hhalf
      by (apply Nat.lt_div2; lia).
    subst mid. revert Hhalf. generalize (Nat.div2 (right - left)). lia. }
  clearbody mid.
  destruct (lookup_lt_is_Some_2 sorted mid) as [m Hm]; [lia|].
  rewrite Hm.
  destruct (compare pivot m) as [order|] eqn:Hc; simpl; [|done].
  destruct (Z.ltb_spec order 0) as [Hb|Hb].
  - apply IH; [lia|lia|done|].
    intros x Hx. simplify_eq. by exists order.
  - apply IH; [lia|lia| |done].
    intros i x [= <-] Hx. simplify_eq. exists order. split; [done|lia].
Qed.

Lemma insert_pivot_throwing_in_place (sorted : list A) (pivot : A) (out : list A) :
  in_place comparefn sorted →
  insert_pivot_throwing comparefn sorted pivot = Normal out →
  in_place comparefn out.
Proof.
  intros Hs. unfold insert_pivot_throwing.
  destruct (insertion_point_throwing _ _ _ _ _ _) as [k|] eqn:Hk; simpl; [|done].
  intros [= <-].
  apply insertion_point_throwing_spec in Hk as (Hlen & Hlow & Hhigh);
    [|lia|lia|done|].
  - apply Sorted_insert; [done..|].
    intros x Hx. by apply goes_before_stays, Hhigh.
  - intros x Hx. apply lookup_lt_Some in Hx. lia.
Qed.

Lemma BinaryInsertionSort_throwing_in_place (sorted rest out : list A) :
  in_place comparefn sorted →
  BinaryInsertionSort_throwing comparefn sorted rest = Normal out →
  in_place comparefn out.
Proof.
  unfold BinaryInsertionSort_throwing. revert sorted.
  induction rest as [|pivot rest IH]; intros sorted Hs; simpl.
  { by intros [= <-]. }
  destruct (insert_pivot_throwing comparefn sorted pivot) as [sorted'|] eqn:Hp;
    simpl; [|done].
  apply IH. by eapply insert_pivot_throwing_in_place.
Qed.

Lemma run_throwing_rising (previous : A) (rest : list A) (n : nat) :
  run_tail_throwing comparefn false previous rest = Normal n →
  in_place comparefn (previous :: take n rest).
Proof.
  revert previous n. induction rest as [|x rest IH]; intros previous n; simpl.
  { intros [= <-]. by repeat constructor. }
  destruct (compare x previous) as [order|] eqn:Hc; simpl; [|done].
  destruct (Z.ltb_spec order 0) as [Hb|Hb].
  { intros [= <-]. by repeat constructor. }
  destruct (run_tail_throwing comparefn false x rest) as [t|] eqn:Ht; simpl; [|done].
  intros [= <-]. simpl. constructor; [by apply IH|].
  constructor. exists order. split; [done|lia].
Qed.

Lemma run_throwing_falling (previous : A) (rest : list A) (n : nat) :
  run_tail_throwing comparefn true previous rest = Normal n →
  Sorted (flip (goes_before comparefn)) (previous :: take n rest).
Proof.
  revert previous n. induction rest as [|x rest IH]; intros previous n; simpl.
  { intros [= <-]. by repeat constructor. }
  destruct (compare x previous) as [order|] eqn:Hc; simpl; [|done].
  destruct (Z.leb_spec 0 order) as [Hb|Hb].
  { intros [= <-]. by repeat constructor. }
  destruct (run_tail_throwing comparefn true x rest) as [t|] eqn:Ht; simpl; [|done].
  intros [= <-]. simpl. constructor; [by apply IH|].
  constructor. by exists order.
Qed.

Lemma run_tail_throwing_le (isDescending : bool) (previous : A) (rest : list A)
    (n : nat) :
  run_tail_throwing comparefn isDescending previous rest = Normal n →
  (n ≤ length rest)%nat.
Proof.
  intros Hn%run_tail_throwing_Normal. subst n. apply run_tail_le.
Qed.

Lemma Array_sort_throwing_result_in_place (array out : list A) :
  Array_sort_throwing comparefn array = Normal out → in_place comparefn out.
Proof.
  unfold Array_sort_throwing.
  destruct (Nat.ltb_spec (length array) 2) as [Hlen|Hlen].
  { intros [= <-]. destruct array as [|x [|y rest]]; simpl in Hlen; [..|lia];
      by repeat constructor. }
  destruct (CountAndMakeRun_throwing comparefn array) as [[runLength work]|] eqn:Hrun;
    simpl; [|done].
  apply BinaryInsertionSort_throwing_in_place.
  destruct array as [|x0 [|x1 rest]]; [simpl in Hlen; lia..|].
  cbn [CountAndMakeRun_throwing] in Hrun.
  destruct (compare x1 x0) as [order|] eqn:Hc; simpl in Hrun; [|done].
  destruct (run_tail_throwing comparefn (order <? 0) x1 rest) as [t|] eqn:Ht;
    simpl in Hrun; [|done].
  pose proof (run_tail_throwing_le _ _ _ _ Ht) as Hle.
  injection Hrun as <- <-.
  destruct (Z.ltb_spec order 0) as [Hb|Hb].
  - assert (Sorted (flip (goes_before comparefn)) (x0 :: x1 :: take t rest)) as Hfall.
    { constructor; [by apply run_throwing_falling|]. constructor. by exists order. }
    assert (length (reverse (x0 :: x1 :: take t rest)) = S (S t)) as Hrev.
    { rewrite length_reverse. simpl. rewrite length_take. lia. }
    cbn [take]. rewrite take_app_length' by done.
    eapply Sorted_impl; [|apply Sorted_reverse, Hfall].
    intros x y Hxy. by apply goes_before_stays.
  - cbn [take]. constructor; [by apply run_throwing_rising|].
    constructor. exists order. split; [done|lia].
Qed.

Lemma Array_sort_throwing_again (array out : list A) :
  Array_sort_throwing comparefn array = Normal out →
  Array_sort_throwing comparefn out = Normal out.
Proof.
  intros Hout. by eapply Array_sort_throwing_in_place, Array_sort_throwing_result_in_place.
Qed.
End InPlace.
End ArraySortThrowingFacts.


(** ** The sort by start date *)

#[local] Instance rankLe_trans : Transitive rankLe.
Proof. intros [x|] [y|] [z|]; simpl; (lia || done). Qed.

#[local] Instance rankLe_total : Total rankLe.
Proof. intros [x|] [y|]; simpl; (lia || auto). Qed.

#[local] Instance rankLe_antisymm : AntiSymm (=) rankLe.
Proof. intros [x|] [y|]; simpl; intros; (done || f_equal; lia). Qed.

#[local] Instance flagLe_trans : Transitive flagLe.
Proof. unfold flagLe. intros x y z. auto. Qed.

#[local] Instance flagLe_total : Total flagLe.
Proof. unfold flagLe. intros [] []; auto. Qed.

#[local] Instance flagLe_antisymm : AntiSymm (=) flagLe.
Proof. unfold flagLe. intros [] []; intros; auto; symmetry; auto. Qed.

Section SorterFacts.
Context `{Host}.

Notation order := (order_or_tie byStartDate).

Lemma undated_rank (e : Event) : undated e ↔ dateRank e = None.
Proof. unfold undated, dateRank. by destruct (ToBoolean _). Qed.

Lemma undated_noDate (e : Event) : undated e ↔ noDate e = true.
Proof. unfold undated, noDate. by destruct (ToBoolean _). Qed.

Lemma dated_rank (e : Event) (t : Z) :
  dated e → parsedDate e = Some t → dateRank e = Some t.
Proof. unfold dated, dateRank. by intros -> ->. Qed.

Lemma dated_not_undated (e : Event) : dated e → undated e → False.
Proof. unfold dated, undated. congruence. Qed.

Lemma parseable_dated (e : Event) :
  parseable e → dated e →
  ∃ t, new_Date (start_date e) = Normal (Some t) ∧ parsedDate e = Some t.
Proof.
  unfold parseable, undated, dated, parsedDate. intros [Hu|[t Ht]] Hd; [congruence|].
  destruct (new_Date (start_date e)) as [[t'|]|]; simplify_eq. eauto.
Qed.

(** A start date that the test [!e.start_date] takes as absent is
    [undefined], [null], [false], [0] or the empty string, and none of
    them throws when converted. *)
Lemma undated_datable (e : Event) : undated e → datable e.
Proof.
  unfold undated, datable, new_Date. destruct (start_date e); simpl; try done; eauto.
Qed.

Lemma parseable_datable (e : Event) : parseable e → datable e.
Proof.
  intros He. destruct (decide (dated e)) as [Hd|Hd].
  - destruct (parseable_dated e He Hd) as (t & Ht & _). by eexists.
  - apply undated_datable. unfold dated, undated in *. by destruct (ToBoolean _).
Qed.

Lemma byStartDate_returns (a b : Event) :
  datable a → datable b → ∃ order, byStartDate a b = Normal order.
Proof.
  intros [da Ha] [db Hb]. unfold byStartDate. rewrite Ha, Hb.
  destruct (negb _); [eauto|]. destruct (negb _); simpl; eauto.
Qed.

(** The comparator against the test for a date alone. *)
Lemma noDate_before (a b : Event) :
  SortCompare order a b < 0 → flagLe (noDate a) (noDate b).
Proof.
  unfold SortCompare, order_or_tie, byStartDate, flagLe, noDate.
  destruct (ToBoolean (start_date a)); simpl; [done|lia].
Qed.

Lemma noDate_not_before (a b : Event) :
  ¬ SortCompare order a b < 0 → flagLe (noDate b) (noDate a).
Proof.
  unfold SortCompare, order_or_tie, byStartDate, flagLe, noDate.
  destruct (ToBoolean (start_date a)), (ToBoolean (start_date b)); simpl;
    try done; lia.
Qed.

Lemma noDate_tied (a b : Event) :
  noDate a = true → ¬ SortCompare order a b < 0.
Proof.
  unfold SortCompare, order_or_tie, byStartDate, noDate.
  destruct (ToBoolean (start_date a)); simpl; [done|lia].
Qed.

(** The comparator on events whose dates parse. *)
Lemma byStartDate_before (a b : Event) :
  parseable a → parseable b →
  SortCompare order a b < 0 → ¬ rankLe (dateRank b) (dateRank a).
Proof.
  intros Ha Hb. unfold SortCompare, order_or_tie, byStartDate, dateRank.
  destruct (ToBoolean (start_date a)) eqn:Hda, (ToBoolean (start_date b)) eqn:Hdb;
    simpl; try lia; try (by auto).
  destruct (parseable_dated a Ha Hda) as (ta & -> & ->).
  destruct (parseable_dated b Hb Hdb) as (tb & -> & ->). simpl. lia.
Qed.

Lemma byStartDate_before_le (a b : Event) :
  parseable a → parseable b →
  SortCompare order a b < 0 → rankLe (dateRank a) (dateRank b).
Proof.
  intros Ha Hb Hlt. pose proof (byStartDate_before a b Ha Hb Hlt).
  by destruct (total rankLe (dateRank a) (dateRank b)).
Qed.

Lemma byStartDate_not_before (a b : Event) :
  parseable a → parseable b →
  ¬ SortCompare order a b < 0 → rankLe (dateRank b) (dateRank a).
Proof.
  intros Ha Hb. unfold SortCompare, order_or_tie, byStartDate, dateRank.
  destruct (ToBoolean (start_date a)) eqn:Hda, (ToBoolean (start_date b)) eqn:Hdb;
    simpl; try lia; try done.
  destruct (parseable_dated a Ha Hda) as (ta & -> & ->).
  destruct (parseable_dated b Hb Hdb) as (tb & -> & ->). simpl. lia.
Qed.

(** An event that the comparator sends before another has the earlier
    date, or a date where the other has none: the other way round the
    comparator returns as well, and keeps the order. *)
Lemma byStartDate_goes_before_stays (a b : Event) :
  goes_before byStartDate a b → stays_behind byStartDate a b.
Proof.
  unfold goes_before, stays_behind, SortCompare_throwing, byStartDate.
  intros (v & Hv & Hlt). revert Hv.
  destruct (ToBoolean (start_date a)), (ToBoolean (start_date b)); simpl.
  - destruct (new_Date (start_date a)) as [[ta|]|]; simpl; try done;
      destruct (new_Date (start_date b)) as [[tb|]|]; simpl; try done;
      intros [= <-]; try lia.
    eexists. split; [done|lia].
  - intros _. eexists. split; [done|lia].
  - intros [= <-]. lia.
  - intros [= <-]. lia.
Qed.

Lemma sortByDate_Normal (events output : list Event) :
  sortByDate events = Normal output → output = Array_sort order events.
Proof. intros Hout. symmetry. by apply Array_sort_throwing_Normal. Qed.

Lemma sortByDate_Permutation (events output : list Event) :
  sortByDate events = Normal output → output ≡ₚ events.
Proof. intros ->%sortByDate_Normal. apply Array_sort_Permutation. Qed.

(** The sort returns when no conversion of a start date throws. *)
Lemma sortByDate_datable (events : list Event) :
  Forall datable events → sortByDate events = Normal (Array_sort order events).
Proof. apply Array_sort_throwing_returns, byStartDate_returns. Qed.

(** Sorting the result of the sort again changes nothing. *)
Lemma sortByDate_again (events output : list Event) :
  sortByDate events = Normal output → sortByDate output = Normal output.
Proof. apply Array_sort_throwing_again, byStartDate_goes_before_stays. Qed.

(** Whatever the dates are, the undated events end up last, in their input
    order. *)
Lemma sortByDate_undatedLast (events output : list Event) :
  sortByDate events = Normal output → undatedLast events output.
Proof.
  intros ->%sortByDate_Normal.
  destruct (Array_sort_spec order noDate flagLe (λ _, True)
              (λ a b _ _, noDate_before a b) (λ a b _ _, noDate_not_before a b)
              events) as [Hs Hf].
  { by apply Forall_forall. }
  split_and!.
  - apply Array_sort_Permutation.
  - intros i j a b Hi Hj Ha Hb.
    destruct (decide (j < i)%nat) as [|Hij]; [done|]. exfalso.
    destruct (decide (i = j)) as [->|].
    { simplify_eq. by eapply dated_not_undated. }
    pose proof (StronglySorted_lookup _ _ i j a b Hs ltac:(lia) Hi Hj) as Hle.
    simpl in Hle. apply (dated_not_undated b Hb).
    apply undated_noDate, Hle. by apply undated_noDate.
  - etransitivity; [|etransitivity; [apply (Hf true)|]].
    + apply list_filter_iff, undated_noDate.
    + intros a b _ _ Ha _. by apply noDate_tied.
    + apply list_filter_iff. intros e. symmetry. apply undated_noDate.
Qed.

Lemma sortByDate_parseable (events : list Event) :
  Forall parseable events →
  ∃ output, sortByDate events = Normal output ∧ sortedByDate events output.
Proof.
  intros HP.
  assert (sortByDate events = Normal (Array_sort order events)) as Hout.
  { apply sortByDate_datable. eapply Forall_impl; [done|]. apply parseable_datable. }
  eexists. split; [done|].
  destruct (Array_sort_spec order dateRank rankLe parseable
              byStartDate_before_le byStartDate_not_before events HP) as [Hs _].
  split_and!.
  - by apply sortByDate_undatedLast.
  - intros i j a b ta tb Hij Hi Hj Ha Hb Hta Htb.
    pose proof (StronglySorted_lookup _ _ i j a b Hs Hij Hi Hj) as Hle.
    simpl in Hle. by rewrite (dated_rank a ta), (dated_rank b tb) in Hle.
  - by eapply sortByDate_again.
Qed.


(** C6 (as amended): an event whose start date is present but does not
    parse is not ordered like an undated one. Against any event with a
    start date the comparator gives NaN in both directions, which the sort
    reads as a tie: an array of it and one dated event is returned as it
    is in either order, and so is an array in which it stands between two
    dated events, whatever their dates. Only against an event without a
    start date is it ordered, and on fewer than 64 events it comes before
    every such event in the output. *)
Theorem unparseable_date_is_a_tie (a : Event) :
  unparseable a →
  (∀ b, dated b → datable b →
        byStartDate a b = Normal NaN ∧ byStartDate b a = Normal NaN
        ∧ sortByDate [a; b] = Normal [a; b] ∧ sortByDate [b; a] = Normal [b; a])
  ∧ (∀ b1 b2, dated b1 → datable b1 → dated b2 → datable b2 →
              sortByDate [b1; a; b2] = Normal [b1; a; b2])
  ∧ (∀ u, undated u →
          byStartDate a u = Normal (Finite (-1)) ∧ byStartDate u a = Normal (Finite 1))
  ∧ (∀ events output i j u,
       (length events < 64)%nat → sortByDate events = Normal output →
       output !! i = Some a → output !! j = Some u → undated u → (i < j)%nat).
Proof.
  intros [Ha Hnone].
  assert (∀ b, dated b → datable b →
               byStartDate a b = Normal NaN ∧ byStartDate b a = Normal NaN) as Htie.
  { intros b Hb [db Hdb]. unfold byStartDate. unfold dated in *.
    rewrite Ha, Hb, Hnone, Hdb. simpl. by destruct db. }
  assert (∀ b, dated b → datable b →
               stays_behind byStartDate a b ∧ stays_behind byStartDate b a) as Hstay.
  { intros b Hb Hdb. destruct (Htie b Hb Hdb) as [Hab Hba].
    unfold stays_behind, SortCompare_throwing. rewrite Hab, Hba. simpl.
    split; eexists; (split; [done|lia]). }
  split_and!.
  - intros b Hb Hdb. destruct (Htie b Hb Hdb) as [Hab Hba].
    destruct (Hstay b Hb Hdb) as [Hsab Hsba].
    split_and!; [done|done|..]; apply Array_sort_throwing_in_place;
      by repeat constructor.
  - intros b1 b2 Hb1 Hd1 Hb2 Hd2.
    destruct (Hstay b1 Hb1 Hd1) as [_ Hs1]. destruct (Hstay b2 Hb2 Hd2) as [Hs2 _].
    apply Array_sort_throwing_in_place. by repeat constructor.
  - intros u Hu. unfold byStartDate. unfold dated, undated in *.
    by rewrite Ha, Hu.
  - intros events output i j u _ Hout Hi Hj Hu.
    destruct (sortByDate_undatedLast events output Hout) as (_ & Hlast & _). eauto.
Qed.
End SorterFacts.



(** C6: with the reference host, the event whose date is the text TBD
    stays before the January event: the claim as stated fails on this
    input. *)
Lemma sortByDate_keeps_unparseable_first :
  sortByDate (H := ReferenceHost.host) [Samples.tbd; Samples.january]
  = Normal [Samples.tbd; Samples.january]
  ∧ ¬ unparseableLast (H := ReferenceHost.host) [Samples.tbd; Samples.january].
Proof.
  split; [reflexivity|].
  intros Hlast.
  assert (1 < 0)%nat; [|lia].
  apply (Hlast 0%nat 1%nat Samples.tbd Samples.january); try reflexivity.
  - split; reflexivity.
  - apply (bool_decide_unpack _). vm_compute. exact I.
Qed.

(** Nor does such an event keep its place among the dated ones: with the
    reference host, the event dated TBD stands before the January event in
    the input and after it in the output. *)
Example sortByDate_moves_unparseable :
  sortByDate (H := ReferenceHost.host)
    [Samples.may; Samples.march; Samples.tbd; Samples.january]
  = Normal [Samples.january; Samples.march; Samples.may; Samples.tbd].
Proof. reflexivity. Qed.

Lemma unparseable_date_is_a_tie_witness :
  unparseable (H := ReferenceHost.host) Samples.tbd
  ∧ dated Samples.january
  ∧ datable (H := ReferenceHost.host) Samples.january
  ∧ sortByDate (H := ReferenceHost.host) [Samples.tbd; Samples.january]
    = Normal [Samples.tbd; Samples.january].
Proof.
  assert (unparseable (H := ReferenceHost.host) Samples.tbd) as Ha
    by (split; reflexivity).
  assert (dated Samples.january) as Hb by reflexivity.
  assert (datable (H := ReferenceHost.host) Samples.january) as Hd
    by (eexists; reflexivity).
  split_and!; [exact Ha|exact Hb|exact Hd|].
  exact (proj1 (proj2 (proj2
    (proj1 (unparseable_date_is_a_tie Samples.tbd Ha) Samples.january Hb Hd)))).
Defined.

(** ** The adapters *)

Lemma try_catch_returns {A} (body : Completion A) (handler : Error → Completion A) :
  (∀ e, ∃ a, handler e = Normal a) → ∃ a, try_catch body handler = Normal a.
Proof. intros Hh. destruct body as [a|e]; simpl; eauto. Qed.

(** What the Devfolio adapter returns, by the outcome of the launch, of
    the rendering and of the close. *)
Lemma scrapeDevfolio_outcome (launch : Completion Browser) :
  scrapeDevfolio launch =
    match launch with
    | Throw _ => Normal []
    | Normal browser =>
        _ ← close browser;
        match render browser with
        | Normal document =>
            Normal (forEach_indexed devfolio_card
                      (select_cards document devfolioSelectors []) 0%nat [])
        | Throw _ => Normal []
        end
    end.
Proof.
  unfold scrapeDevfolio, finally. destruct launch as [[rendering closing]|e]; simpl.
  - by destruct closing, rendering.
  - done.
Qed.

(** X18: no error raised in the [try] block of an adapter gets out.
    Whatever its transport answers or throws, and whatever the mapping of
    the records throws, every adapter but Devfolio returns a list, and
    Devfolio does when the browser was not launched or its close returns;
    when the fetch itself throws (for Devpost: when both the feed and the
    fallback throw), the list is empty. The one error that leaves an
    adapter is an error thrown by the close of the browser in Devfolio's
    [finally] block: the adapter's promise is then rejected with it. The
    join records the rejection, and the run goes on as if the browser had
    not been launched. *)
Theorem adapters_catch_every_error `{Host} :
  (∀ feed response, ∃ events, scrapeDevpost feed response = Normal events)
  ∧ (∀ response, ∃ events, scrapeUnstop response = Normal events)
  ∧ (∀ response, ∃ events, scrapeDorahacks response = Normal events)
  ∧ (∀ launch, (∀ browser, launch = Normal browser → close browser = Normal ()) →
               ∃ events, scrapeDevfolio launch = Normal events)
  ∧ (∀ browser reason, close browser = Throw reason →
                       scrapeDevfolio (Normal browser) = Throw reason)
  ∧ (∀ response, ∃ events, scrapeHackerEarth response = Normal events)
  ∧ (∀ page, ∃ events, getMLHEvents page = Normal events)
  ∧ (∀ e1 e2, scrapeDevpost (Throw e1) (Throw e2) = Normal [])
  ∧ (∀ e, scrapeUnstop (Throw e) = Normal [])
  ∧ (∀ e, scrapeDorahacks (Throw e) = Normal [])
  ∧ (∀ e, scrapeDevfolio (Throw e) = Normal [])
  ∧ (∀ e, scrapeDevfolio (Normal (mkBrowser (Throw e) (Normal ()))) = Normal [])
  ∧ (∀ e, scrapeHackerEarth (Throw e) = Normal [])
  ∧ (∀ e, getMLHEvents (Throw e) = Normal [])
  ∧ (∀ w, Forall2 (λ name result, name = "Devfolio" ∨ ∃ value, result = Fulfilled value)
            sources (allSettled w))
  ∧ (∀ w browser reason,
       devfolio_browser w = Normal browser → close browser = Throw reason →
       allSettled w !! 3%nat = Some (Rejected reason)
       ∧ getAllEvents w =
           getAllEvents {| devpost_feed := devpost_feed w;
                           devpost_api := devpost_api w;
                           unstop_response := unstop_response w;
                           dorahacks_response := dorahacks_response w;
                           devfolio_browser := Throw reason;
                           hackerearth_response := hackerearth_response w;
                           mlh_page := mlh_page w |}).
Proof.
  assert (∀ feed response, ∃ events, scrapeDevpost feed response = Normal events) as H1.
  { intros. apply try_catch_returns. intros _. apply try_catch_returns. eauto. }
  assert (∀ response, ∃ events, scrapeUnstop response = Normal events) as H2.
  { intros. apply try_catch_returns. eauto. }
  assert (∀ response, ∃ events, scrapeDorahacks response = Normal events) as H3.
  { intros. apply try_catch_returns. eauto. }
  assert (∀ response, ∃ events, scrapeHackerEarth response = Normal events) as H5.
  { intros. apply try_catch_returns. eauto. }
  assert (∀ page, ∃ events, getMLHEvents page = Normal events) as H6.
  { intros. apply try_catch_returns. eauto. }
  split_and!; try done.
  - intros launch Hclose. rewrite scrapeDevfolio_outcome.
    destruct launch as [browser|e]; [|eauto].
    rewrite (Hclose browser eq_refl). simpl. destruct (render browser); eauto.
  - intros browser reason Hclose. rewrite scrapeDevfolio_outcome. by rewrite Hclose.
  - intros w. unfold allSettled, sources.
    destruct (H1 (devpost_feed w) (devpost_api w)) as [? ->].
    destruct (H2 (unstop_response w)) as [? ->].
    destruct (H3 (dorahacks_response w)) as [? ->].
    destruct (H5 (hackerearth_response w)) as [? ->].
    destruct (H6 (mlh_page w)) as [? ->].
    repeat (apply Forall2_cons_2; [first [by left|right; by eexists]|]).
    apply Forall2_nil_2.
  - intros w browser reason Hw Hclose.
    assert (scrapeDevfolio (devfolio_browser w) = Throw reason) as Hout.
    { rewrite Hw, scrapeDevfolio_outcome. by rewrite Hclose. }
    unfold getAllEvents, allSettled. simpl. rewrite Hout. split; [done|].
    unfold pipeline. by rewrite !aggregate_spec.
Qed.

(** C9: the Devfolio adapter lets an error out. A navigation that times
    out is caught, and the close of the browser that throws after it, in
    the [finally] block, is not: the adapter's promise is rejected with
    the error of the close, where the claim has it return a list; the
    join records the rejection as the outcome of the fourth adapter. *)
Theorem scrapeDevfolio_rejected_by_close `{Host} :
  scrapeDevfolio
    (Normal {| render := Throw (TransportError "Navigation timeout");
               close := Throw (TransportError "EPERM: operation not permitted") |})
  = Throw (TransportError "EPERM: operation not permitted")
  ∧ ¬ (∀ launch, ∃ events, scrapeDevfolio launch = Normal events)
  ∧ (∀ w,
       devfolio_browser w
       = Normal {| render := Throw (TransportError "Navigation timeout");
                   close := Throw (TransportError "EPERM: operation not permitted") |} →
       allSettled w !! 3%nat
       = Some (Rejected (TransportError "EPERM: operation not permitted"))).
Proof.
  split_and!.
  - reflexivity.
  - intros Hreturns.
    destruct (Hreturns
      (Normal {| render := Throw (TransportError "Navigation timeout");
                 close := Throw (TransportError "EPERM: operation not permitted") |}))
      as [events Hev].
    discriminate Hev.
  - intros w Hw. unfold allSettled. simpl. by rewrite Hw.
Qed.

Lemma scrapeDevfolio_rejected_by_close_witness :
  allSettled (H := ReferenceHost.host)
    {| devpost_feed := Samples.down; devpost_api := Samples.down;
       unstop_response := Samples.down; dorahacks_response := Samples.down;
       devfolio_browser :=
         Normal {| render := Throw (TransportError "Navigation timeout");
                   close := Throw (TransportError "EPERM: operation not permitted") |};
       hackerearth_response := Samples.down; mlh_page := Samples.down |} !! 3%nat
  = Some (Rejected (TransportError "EPERM: operation not permitted")).
Proof.
  apply (proj2 (proj2 (scrapeDevfolio_rejected_by_close (H := ReferenceHost.host)))).
  reflexivity.
Defined.

Lemma adapters_catch_every_error_witness :
  close (mkBrowser (Normal (λ _, [])) (Throw (TransportError "Protocol error")))
  = Throw (TransportError "Protocol error")
  ∧ scrapeDevfolio
      (Normal (mkBrowser (Normal (λ _, [])) (Throw (TransportError "Protocol error"))))
    = Throw (TransportError "Protocol error").
Proof.
  split; [reflexivity|].
  exact (proj1 (proj2 (proj2 (proj2 (proj2
    (adapters_catch_every_error (H := ReferenceHost.host))))))
    (mkBrowser (Normal (λ _, [])) (Throw (TransportError "Protocol error")))
    (TransportError "Protocol error") eq_refl).
Defined.

(** The length of the result of [map] is the length of the array. *)
Lemma array_map_length {A B} (f : A → Completion B) (l : list A) (l' : list B) :
  array_map f l = Normal l' → length l' = length l.
Proof.
  revert l'. induction l as [|x l IH]; intros l'; simpl; [by intros [= <-]|].
  destruct (f x); simpl; [|done].
  destruct (array_map f l); simpl; [|done].
  intros [= <-]. simpl. f_equal. by apply IH.
Qed.

Lemma sliced_map_length `{Host} {B} (f : JSValue → Completion B) (v : JSValue) (l' : list B) :
  (first20 ← slice_0_20 v; items ← elements_for_map first20; array_map f items)
    = Normal l' →
  (length l' ≤ maxEvents)%nat.
Proof.
  destruct v; simpl; try done.
  intros Hmap%array_map_length. rewrite Hmap, length_take. unfold maxEvents. lia.
Qed.

Lemma forEach_indexed_length {A} (callback : list Event → A → nat → list Event)
    (array : list A) (index : nat) (results : list Event) :
  (∀ results x i, (20 ≤ i)%nat → callback results x i = results) →
  (∀ results x i, length (callback results x i) ≤ S (length results))%nat →
  (length (forEach_indexed callback array index results)
     ≤ length results + (maxEvents - index))%nat.
Proof.
  intros Hskip Hgrow. revert index results.
  induction array as [|x array IH]; intros index results; simpl; [lia|].
  etransitivity; [apply IH|]. unfold maxEvents.
  destruct (decide (20 ≤ index)%nat).
  - rewrite Hskip by done. lia.
  - specialize (Hgrow results x index). lia.
Qed.

Lemma try_catch_length {A} (body : Completion (list A))
    (handler : Error → Completion (list A)) (n : nat) :
  (∀ l, body = Normal l → (length l ≤ n)%nat) →
  (∀ e l, handler e = Normal l → (length l ≤ n)%nat) →
  ∀ l, try_catch body handler = Normal l → (length l ≤ n)%nat.
Proof. intros Hb Hh l. destruct body; simpl; eauto. Qed.

Lemma nil_length {A} (l : list A) (n : nat) :
  Normal (A := list A) [] = Normal l → (length l ≤ n)%nat.
Proof. intros [= <-]. simpl. lia. Qed.

(** The adapters that cut their list themselves return at most 20
    events. *)
Lemma capped_adapters `{Host} :
  (∀ feed response events,
     scrapeDevpost feed response = Normal events → (length events ≤ maxEvents)%nat)
  ∧ (∀ page events,
     scrapeDevfolio page = Normal events → (length events ≤ maxEvents)%nat)
  ∧ (∀ response events,
     scrapeHackerEarth response = Normal events → (length events ≤ maxEvents)%nat)
  ∧ (∀ page events,
     getMLHEvents page = Normal events → (length events ≤ maxEvents)%nat).
Proof.
  split_and!.
  - intros feed response. apply try_catch_length.
    + intros events. unfold devpostFeedEvents.
      destruct feed as [feed|e]; simpl; [|done].
      destruct (get feed "items") as [items|e]; simpl; [|done].
      apply sliced_map_length.
    + intros _. apply try_catch_length; [|intros _ l; apply nil_length].
      intros events. unfold devpostApiEvents.
      destruct response as [data|e]; simpl; [|done].
      destruct (get data "hackathons") as [hk|e]; simpl; [|done].
      destruct (nullish hk); [apply nil_length|apply sliced_map_length].
  - intros page events. rewrite scrapeDevfolio_outcome.
    destruct page as [[rendering closing]|e]; simpl; [|apply nil_length].
    destruct closing; simpl; [|done].
    destruct rendering as [document|e]; [|apply nil_length].
    intros [= <-]. etransitivity; [apply forEach_indexed_length|unfold maxEvents; simpl; lia].
    + intros results x i Hi. unfold devfolio_card.
      by destruct (Nat.leb_spec 20 i); [|lia].
    + intros results x i. unfold devfolio_card.
      destruct (20 <=? i)%nat; [lia|].
      destruct (titleEl x); rewrite ?length_app; simpl; lia.
  - intros response. apply try_catch_length; [|intros _ l; apply nil_length].
    intros events. unfold hackerEarthEvents.
    destruct response as [data|e]; simpl; [|done].
    destruct (get data "response") as [list|e]; simpl; [|done].
    destruct (nullish list); [apply nil_length|apply sliced_map_length].
  - intros page. apply try_catch_length; [|intros _ l; apply nil_length].
    intros events. destruct page as [elements|e]; simpl; [|done].
    intros [= <-]. etransitivity; [apply forEach_indexed_length|unfold maxEvents; simpl; lia].
    + intros results x i Hi. unfold mlh_element.
      by destruct (Nat.leb_spec 20 i); [|lia].
    + intros results x i. unfold mlh_element.
      destruct (20 <=? i)%nat; [lia|].
      destruct (ToBoolean _); rewrite ?length_app; simpl; lia.
Qed.

(** ** The whole run *)

(** The run returns when every event the adapters give has a string for a
    title. *)
Lemma pipeline_returns `{Host} (results : list Settled) :
  Forall titled (aggregate results).1 →
  pipeline results = sortByDate (firstOfEachKey (aggregate results).1).
Proof.
  intros Ht. unfold pipeline.
  destruct (aggregate results) as [allEvents stats]. simpl in *.
  by rewrite removeDuplicates_titled.
Qed.

(** C1: an Unstop record whose title is the empty string is not
    discarded: the run returns the event made from it, with an empty
    [event_name]. *)
Theorem empty_title_reaches_the_output `{Host} :
  ∃ e,
    getAllEvents
      (Samples.onlyUnstop
         (Samples.unstopBody [Samples.unstopRecord (JSString EmptyString)]))
    = Normal [e]
    ∧ event_name e = JSString EmptyString
    ∧ website e = "Unstop".
Proof.
  eexists. split.
  { unfold getAllEvents. rewrite pipeline_returns.
    - cbn. rewrite decide_False by apply not_elem_of_nil. reflexivity.
    - cbn. apply Forall_singleton. by eexists. }
  split; reflexivity.
Qed.

(** C2: an Unstop record without a title makes the run throw: the event
    made from it has no [event_name], and the removal of duplicates calls
    [toLowerCase] on it. *)
Theorem missing_title_aborts_the_run `{Host} :
  ∃ message,
    getAllEvents (Samples.onlyUnstop (Samples.unstopBody [JSObject []]))
    = Throw (TypeError message).
Proof. eexists. reflexivity. Qed.

(** C8: the Unstop adapter returns as many events as the body holds
    records: 21 events for 21 records. *)
Theorem scrapeUnstop_exceeds_the_cap `{Host} :
  ∃ events,
    scrapeUnstop
      (Normal (Samples.unstopBody
                 (replicate 21 (Samples.unstopRecord (JSString "Hack")))))
    = Normal events
    ∧ length events = 21%nat
    ∧ (maxEvents < length events)%nat.
Proof. eexists. split; [reflexivity|]. split; [reflexivity|]. unfold maxEvents. simpl. lia. Qed.

(** ** The examples of the specification *)

Lemma removeDuplicates_keeps_first_of_each_key_witness :
  Forall (titled)
    [Samples.event "Devpost" "AI Hack" (JSString "2025-03-01");
     Samples.event "Unstop" "AI Hack!!" JSNull;
     Samples.event "MLH" "Web3 Jam" JSNull]
  ∧ removeDuplicates (H := ReferenceHost.host)
      [Samples.event "Devpost" "AI Hack" (JSString "2025-03-01");
       Samples.event "Unstop" "AI Hack!!" JSNull;
       Samples.event "MLH" "Web3 Jam" JSNull]
    = Normal [Samples.event "Devpost" "AI Hack" (JSString "2025-03-01");
              Samples.event "MLH" "Web3 Jam" JSNull]
  ∧ titleKey (H := ReferenceHost.host) (Samples.event "Unstop" "AI Hack!!" JSNull)
    = Some "aihack".
Proof.
  assert (Forall (titled)
            [Samples.event "Devpost" "AI Hack" (JSString "2025-03-01");
             Samples.event "Unstop" "AI Hack!!" JSNull;
             Samples.event "MLH" "Web3 Jam" JSNull]) as Ht.
  { repeat (apply Forall_cons_2; [by eexists|]). apply Forall_nil_2. }
  split; [exact Ht|]. split; [|reflexivity].
  rewrite (proj1 (removeDuplicates_keeps_first_of_each_key (H := ReferenceHost.host) _ Ht)).
  vm_compute. reflexivity.
Defined.

Lemma removeDuplicates_idempotent_witness :
  Forall (titled) [Samples.march; Samples.january; Samples.march]
  ∧ ∃ uniqueEvents,
      removeDuplicates (H := ReferenceHost.host)
        [Samples.march; Samples.january; Samples.march]
      = Normal uniqueEvents
      ∧ removeDuplicates (H := ReferenceHost.host) uniqueEvents = Normal uniqueEvents.
Proof.
  assert (Forall (titled) [Samples.march; Samples.january; Samples.march]) as Ht.
  { repeat (apply Forall_cons_2; [by eexists|]). apply Forall_nil_2. }
  split; [exact Ht|].
  destruct (proj2 (proj2 (removeDuplicates_idempotent (H := ReferenceHost.host)
                            [Samples.march; Samples.january; Samples.march])) Ht)
    as [u Hu].
  exists u. split; [exact Hu|].
  exact (proj1 (proj2 (removeDuplicates_idempotent (H := ReferenceHost.host)
                         [Samples.march; Samples.january; Samples.march])) u Hu).
Defined.

(** The two titles that normalize to [aihack] collapse into the first
    event, and the dated event comes before the undated one, also when the
    undated one is met first. *)
Example dedupe_then_sort :
  pipeline (H := ReferenceHost.host)
    [Fulfilled [Samples.event "MLH" "Web3 Jam" JSNull];
     Rejected (TransportError "timeout");
     Fulfilled [Samples.event "Devpost" "AI Hack" (JSString "2025-03-01");
                Samples.event "Unstop" "AI Hack!!" JSNull]]
  = Normal [Samples.event "Devpost" "AI Hack" (JSString "2025-03-01");
            Samples.event "MLH" "Web3 Jam" JSNull].
Proof. vm_compute. reflexivity. Qed.

(** ** The website of an event *)

Lemma array_map_Forall {A B} (f : A → Completion B) (Q : B → Prop)
    (l : list A) (l' : list B) :
  (∀ x y, f x = Normal y → Q y) → array_map f l = Normal l' → Forall Q l'.
Proof.
  intros Hf. revert l'. induction l as [|x l IH]; intros l'; simpl.
  { intros [= <-]. constructor. }
  destruct (f x) as [y|] eqn:Hy; simpl; [|done].
  destruct (array_map f l) as [ys|]; simpl; [|done].
  intros [= <-]. constructor; eauto.
Qed.

Lemma forEach_indexed_Forall {A} (callback : list Event → A → nat → list Event)
    (Q : Event → Prop) (array : list A) (index : nat) (results : list Event) :
  (∀ results x i, Forall Q results → Forall Q (callback results x i)) →
  Forall Q results → Forall Q (forEach_indexed callback array index results).
Proof.
  intros Hcb. revert index results.
  induction array as [|x array IH]; intros index results Hr; simpl; auto.
Qed.

Lemma try_catch_Forall {A} (Q : A → Prop) (body : Completion (list A))
    (handler : Error → Completion (list A)) :
  (∀ l, body = Normal l → Forall Q l) →
  (∀ e l, handler e = Normal l → Forall Q l) →
  ∀ l, try_catch body handler = Normal l → Forall Q l.
Proof. intros Hb Hh l. destruct body; simpl; eauto. Qed.

(** Splits the goal on the outcome of the first step of a sequence. *)
Ltac step :=
  match goal with
  | |- context [mbind _ ?c] =>
      let E := fresh in destruct c eqn:E; simpl; try done
  end.

Section Websites.
Context `{Host}.

Notation from name := (λ e : Event, website e = name).

Lemma nil_Forall (Q : Event → Prop) (l : list Event) :
  Normal (A := list Event) [] = Normal l → Forall Q l.
Proof. intros [= <-]. constructor. Qed.

Lemma devpostFeedEvent_website x y : devpostFeedEvent x = Normal y → website y = "Devpost".
Proof. unfold devpostFeedEvent. repeat step. by intros [= <-]. Qed.

Lemma devpostApiEvent_website x y : devpostApiEvent x = Normal y → website y = "Devpost".
Proof. unfold devpostApiEvent. repeat step. by intros [= <-]. Qed.

Lemma unstopEvent_website x y : unstopEvent x = Normal y → website y = "Unstop".
Proof. unfold unstopEvent. repeat step. by intros [= <-]. Qed.

Lemma dorahacksEvent_website x y : dorahacksEvent x = Normal y → website y = "Dorahacks".
Proof. unfold dorahacksEvent. repeat step. by intros [= <-]. Qed.

Lemma hackerEarthEvent_website x y :
  hackerEarthEvent x = Normal y → website y = "HackerEarth".
Proof. unfold hackerEarthEvent. repeat step. by intros [= <-]. Qed.

Lemma scrapeDevpost_website feed response l :
  scrapeDevpost feed response = Normal l → Forall (from "Devpost") l.
Proof.
  apply try_catch_Forall.
  - intros events. unfold devpostFeedEvents. repeat step.
    apply array_map_Forall, devpostFeedEvent_website.
  - intros _. apply try_catch_Forall; [|intros _ ?; apply nil_Forall].
    intros events. unfold devpostApiEvents.
    repeat step; try destruct (nullish _); try done;
      first [apply nil_Forall | apply array_map_Forall, devpostApiEvent_website].
Qed.

Lemma scrapeUnstop_website response l :
  scrapeUnstop response = Normal l → Forall (from "Unstop") l.
Proof.
  apply try_catch_Forall; [|intros _ ?; apply nil_Forall].
  intros events.
  repeat step; try destruct (nullish _); try done;
    first [apply nil_Forall | apply array_map_Forall, unstopEvent_website].
Qed.

Lemma scrapeDorahacks_website response l :
  scrapeDorahacks response = Normal l → Forall (from "Dorahacks") l.
Proof.
  apply try_catch_Forall; [|intros _ ?; apply nil_Forall].
  intros events. repeat step.
  apply array_map_Forall, dorahacksEvent_website.
Qed.

Lemma scrapeDevfolio_website page l :
  scrapeDevfolio page = Normal l → Forall (from "Devfolio") l.
Proof.
  rewrite scrapeDevfolio_outcome.
  destruct page as [[rendering closing]|e]; simpl; [|apply nil_Forall].
  destruct closing; simpl; [|done].
  destruct rendering as [document|e]; [|apply nil_Forall].
  intros [= <-].
  apply forEach_indexed_Forall; [|constructor].
  intros results x i Hr. unfold devfolio_card.
  destruct (20 <=? i)%nat; [done|]. destruct (titleEl x); [|done].
  apply Forall_app. split; [done|]. by repeat constructor.
Qed.

Lemma scrapeHackerEarth_website response l :
  scrapeHackerEarth response = Normal l → Forall (from "HackerEarth") l.
Proof.
  apply try_catch_Forall; [|intros _ ?; apply nil_Forall].
  intros events. unfold hackerEarthEvents.
  repeat step; try destruct (nullish _); try done;
    first [apply nil_Forall | apply array_map_Forall, hackerEarthEvent_website].
Qed.

Lemma getMLHEvents_website page l :
  getMLHEvents page = Normal l → Forall (from "MLH") l.
Proof.
  apply try_catch_Forall; [|intros _ ?; apply nil_Forall].
  intros events. destruct page; simpl; [|done]. intros [= <-].
  apply forEach_indexed_Forall; [|constructor].
  intros results x i Hr. unfold mlh_element.
  destruct (20 <=? i)%nat; [done|]. destruct (ToBoolean _); [|done].
  apply Forall_app. split; [done|]. by repeat constructor.
Qed.

Lemma settled_website (name : string) (outcome : Completion (list Event)) :
  name ∈ sources →
  (∀ l, outcome = Normal l → Forall (from name) l) →
  Forall (λ e, website e ∈ sources) (contribution (settle outcome)).
Proof.
  intros Hname Hl. destruct outcome as [l|e]; simpl; [|constructor].
  destruct l; [constructor|].
  eapply Forall_impl; [by apply Hl|]. simpl. by intros ? ->.
Qed.

(** The website half of the invariant of the output: every event the run
    returns carries the name of one of the six sources, and a title that
    is a string. *)
Lemma getAllEvents_website (w : World) (events : list Event) :
  getAllEvents w = Normal events →
  Forall (λ e, website e ∈ sources ∧ titled e) events.
Proof.
  unfold getAllEvents, pipeline.
  destruct (aggregate (allSettled w)) as [allEvents stats] eqn:Hagg.
  destruct (removeDuplicates allEvents) as [u|] eqn:Hu; simpl; [|done].
  intros Hsort%sortByDate_Permutation.
  apply removeDuplicates_Normal in Hu as [Ht ->].
  rewrite Hsort.
  pose proof (firstOfEachKey_subseteq allEvents) as Hsub.
  assert (Forall (λ e, website e ∈ sources) allEvents) as Hw.
  { pose proof (aggregate_spec (allSettled w)) as Hall.
    rewrite Hagg in Hall. injection Hall as -> _.
    unfold allSettled. simpl. rewrite !Forall_app. split_and!.
    - eapply settled_website; [|apply scrapeDevpost_website]. set_solver.
    - eapply settled_website; [|apply scrapeUnstop_website]. set_solver.
    - eapply settled_website; [|apply scrapeDorahacks_website]. set_solver.
    - eapply settled_website; [|apply scrapeDevfolio_website]. set_solver.
    - eapply settled_website; [|apply scrapeHackerEarth_website]. set_solver.
    - eapply settled_website; [|apply getMLHEvents_website]. set_solver.
    - constructor. }
  rewrite Forall_forall in Ht, Hw |- *. intros e He. split; [apply Hw|apply Ht]; set_solver.
Qed.
End Websites.

(** * Further properties of the adapters *)

Lemma nonempty_truthy (s : string) : ToBoolean (JSString s) = true ↔ s ≠ EmptyString.
Proof. simpl. destruct (String.eqb_spec s EmptyString); naive_solver. Qed.

Lemma mlh_loop (elements : list EventElement) (i : nat) (events : list Event) :
  forEach_indexed mlh_element elements i events =
    events ++ (mlhEvent <$> filter (λ el, title_text el ≠ EmptyString)
                              (take (20 - i)%nat elements)).
Proof.
  revert i events. induction elements as [|el elements IH]; intros i events.
  { by rewrite take_nil, filter_nil, app_nil_r. }
  cbn [forEach_indexed]. rewrite IH. unfold mlh_element.
  destruct (Nat.leb_spec 20 i) as [Hi|Hi].
  - by replace (20 - i)%nat with 0%nat by lia; replace (20 - S i)%nat with 0%nat by lia.
  - replace (20 - i)%nat with (S (20 - S i)) by lia. cbn [take].
    rewrite filter_cons.
    destruct (ToBoolean (JSString (title_text el))) eqn:Ht.
    + apply nonempty_truthy in Ht. rewrite decide_True by done.
      by rewrite <- (assoc_L (++)).
    + rewrite decide_False; [done|]. intros Hne%nonempty_truthy. congruence.
Qed.

(** X1: the MLH adapter returns, in document order, one event for each of
    the first 20 [.event] elements that has a non-empty title; an element
    after the 20th is ignored even when fewer than 20 events were made.
    Every event it returns therefore has a non-empty title. *)
Theorem getMLHEvents_first_twenty_titled :
  (∀ elements,
     getMLHEvents (Normal elements) =
       Normal (mlhEvent <$> filter (λ el, title_text el ≠ EmptyString)
                              (take 20 elements)))
  ∧ (∀ page events,
       getMLHEvents page = Normal events →
       Forall (λ e, ∃ s, event_name e = JSString s ∧ s ≠ EmptyString) events).
Proof.
  assert (∀ elements,
     getMLHEvents (Normal elements) =
       Normal (mlhEvent <$> filter (λ el, title_text el ≠ EmptyString)
                              (take 20 elements))) as Hloop.
  { intros elements. unfold getMLHEvents. simpl. by rewrite mlh_loop. }
  split; [done|].
  intros [elements|e] events; [rewrite Hloop|]; intros [= <-]; [|constructor].
  apply Forall_fmap, Forall_forall. intros el [Ht _]%list_elem_of_filter.
  by eexists.
Qed.

Lemma getMLHEvents_first_twenty_titled_witness :
  getMLHEvents (Normal [mkEventElement "Hack" None "May 1" EmptyString;
                        mkEventElement EmptyString None "May 2" EmptyString])
  = Normal [mlhEvent (mkEventElement "Hack" None "May 1" EmptyString)]
  ∧ Forall (λ e, ∃ s, event_name e = JSString s ∧ s ≠ EmptyString)
      [mlhEvent (mkEventElement "Hack" None "May 1" EmptyString)].
Proof.
  split; [reflexivity|].
  exact (proj2 getMLHEvents_first_twenty_titled
           (Normal [mkEventElement "Hack" None "May 1" EmptyString;
                    mkEventElement EmptyString None "May 2" EmptyString])
           _ eq_refl).
Defined.

Lemma devfolio_loop (cards : list Card) (i : nat) (results : list Event) :
  forEach_indexed devfolio_card cards i results =
    results ++ omap devfolioEvent (take (20 - i)%nat cards).
Proof.
  revert i results. induction cards as [|card cards IH]; intros i results.
  { by rewrite take_nil, app_nil_r. }
  cbn [forEach_indexed]. rewrite IH. unfold devfolio_card, devfolioEvent.
  destruct (Nat.leb_spec 20 i) as [Hi|Hi].
  - by replace (20 - i)%nat with 0%nat by lia; replace (20 - S i)%nat with 0%nat by lia.
  - replace (20 - i)%nat with (S (20 - S i)) by lia. cbn [take omap list_omap].
    destruct (titleEl card); [|done]. by rewrite <- (assoc_L (++)).
Qed.

Lemma select_cards_first (document : Document) (selectors : list string)
    (cards : list Card) (i : nat) (s : string) :
  selectors !! i = Some s → document s ≠ [] →
  (∀ j s', (j < i)%nat → selectors !! j = Some s' → document s' = []) →
  select_cards document selectors cards = document s.
Proof.
  revert i cards. induction selectors as [|s0 selectors IH]; intros i cards Hi Hs Hbefore.
  { by rewrite lookup_nil in Hi. }
  simpl. destruct i as [|i].
  - simpl in Hi. simplify_eq. by destruct (document s).
  - rewrite (Hbefore 0%nat s0); [|lia|done]. simpl.
    apply (IH i); [done..|]. intros j s' Hj Hs'. apply (Hbefore (S j)); [lia|done].
Qed.

Lemma select_cards_none (document : Document) (selectors : list string)
    (cards : list Card) :
  (∀ s, s ∈ selectors → document s = []) →
  select_cards document selectors cards = match selectors with [] => cards | _ => [] end.
Proof.
  revert cards. induction selectors as [|s selectors IH]; intros cards Hall; [done|].
  simpl. rewrite (Hall s) by set_solver. simpl.
  rewrite IH by set_solver. by destruct selectors.
Qed.



Lemma filter_iff_Forall {A} (Q P1 P2 : A → Prop)
    `{!∀ x, Decision (P1 x), !∀ x, Decision (P2 x)} (l : list A) :
  Forall Q l → (∀ x, Q x → P1 x ↔ P2 x) → filter P1 l = filter P2 l.
Proof.
  intros HQ Hiff. induction HQ as [|x l Hx _ IH]; [done|].
  rewrite !filter_cons, IH. specialize (Hiff x Hx).
  destruct (decide (P1 x)), (decide (P2 x)); naive_solver.
Qed.

Lemma array_map_Throw {A B} (f : A → Completion B) (l : list A) (x : A) (e : Error) :
  x ∈ l → f x = Throw e → ∃ e', array_map f l = Throw e'.
Proof.
  intros Hx Hf. induction l as [|y l IH]; [by apply elem_of_nil in Hx|].
  simpl. destruct (f y) as [b|e0] eqn:Hy; simpl; [|by eexists].
  apply elem_of_cons in Hx as [->|Hx]; [congruence|].
  destruct (IH Hx) as [e' ->]. simpl. by eexists.
Qed.

Lemma array_map_Normal {A B} (f : A → Completion B) (g : A → B) (l : list A) :
  Forall (λ x, f x = Normal (g x)) l → array_map f l = Normal (g <$> l).
Proof. induction 1 as [|x l Hx _ IH]; [done|]. simpl. by rewrite Hx, IH. Qed.

Section AdapterFacts.
Context `{Host}.

Lemma get_present (r : JSValue) (key : string) :
  nullish r = false → ∃ v, get r key = Normal v.
Proof.
  destruct r; simpl; try done; try (by eexists);
    destruct (String.eqb _ _); by eexists.
Qed.

Lemma get_Normal_present (r v : JSValue) (key : string) :
  get r key = Normal v → nullish r = false.
Proof. by destruct r. Qed.

Lemma get_opt_returns (v : JSValue) (key : string) : ∃ v', get_opt v key = Normal v'.
Proof.
  destruct v; simpl; try (by eexists); unfold get_opt; simpl;
    destruct (String.eqb _ _); by eexists.
Qed.

Lemma unstopEvent_present (r : JSValue) :
  nullish r = false →
  (∃ url path, get r "public_url" = Normal url ∧ ToString url = Normal path) →
  ∃ event, unstopEvent r = Normal event ∧ get r "title" = Normal (event_name event).
Proof.
  intros Hr (url & path & Hurl & Hpath). unfold unstopEvent.
  destruct (get_present r "title" Hr) as [title Htitle].
  rewrite Htitle, Hurl. simpl. rewrite Hpath. simpl.
  destruct (get_present r "start_date" Hr) as [? ->].
  destruct (get_present r "end_date" Hr) as [? ->].
  destruct (get_present r "organisation" Hr) as [organisation ->]. simpl.
  destruct (get_opt_returns organisation "name") as [? ->].
  destruct (get_present r "type" Hr) as [? ->].
  destruct (get_present r "prize_money" Hr) as [? ->]. simpl.
  eexists. split; reflexivity.
Qed.

Lemma unstopEvent_nullish (r : JSValue) :
  nullish r = true → ∃ e, unstopEvent r = Throw e.
Proof. destruct r; try done; intros _; eexists; reflexivity. Qed.

Lemma unstopEvent_unconvertible (r url : JSValue) (reason : Error) :
  get r "public_url" = Normal url → ToString url = Throw reason →
  unstopEvent r = Throw reason.
Proof.
  intros Hurl Hthrow. unfold unstopEvent.
  destruct (get_present r "title" (get_Normal_present _ _ _ Hurl)) as [title ->].
  rewrite Hurl. simpl. by rewrite Hthrow.
Qed.

Lemma unstop_map (records : list JSValue) :
  Forall (λ r, nullish r = false
               ∧ ∃ url path, get r "public_url" = Normal url
                             ∧ ToString url = Normal path) records →
  ∃ events,
    array_map unstopEvent records = Normal events
    ∧ length events = length records
    ∧ array_map (λ r, get r "title") records = Normal (event_name <$> events).
Proof.
  induction 1 as [|r records [Hr Hurl] _ IH]; [by exists []|].
  destruct (unstopEvent_present r Hr Hurl) as (event & Hev & Htitle).
  destruct IH as (events & Hevs & Hlen & Htitles).
  exists (event :: events). cbn [array_map]. rewrite Hev, Hevs, Htitle, Htitles.
  simpl. by rewrite Hlen.
Qed.

(** X3: when the body of the Unstop answer holds an array of records, the
    adapter returns one event per record, in order and with the record's
    title, provided no record is null or undefined and the [public_url] of
    every record can be converted to a string; a single record that is
    null or undefined, or whose [public_url] cannot be converted, makes it
    return no event at all. *)
Theorem scrapeUnstop_one_event_per_record (data inner : JSValue)
    (records : list JSValue) :
  get data "data" = Normal inner →
  get_opt inner "data" = Normal (JSArray records) →
  (Forall (λ r, nullish r = false
                ∧ ∃ url path, get r "public_url" = Normal url
                              ∧ ToString url = Normal path) records →
   ∃ events,
     scrapeUnstop (Normal data) = Normal events
     ∧ length events = length records
     ∧ array_map (λ r, get r "title") records = Normal (event_name <$> events))
  ∧ (Exists (λ r, nullish r = true
                  ∨ ∃ url reason, get r "public_url" = Normal url
                                  ∧ ToString url = Throw reason) records →
     scrapeUnstop (Normal data) = Normal []).
Proof.
  intros Hinner Hlist.
  assert (scrapeUnstop (Normal data)
          = try_catch (array_map unstopEvent records) (λ _, Normal [])) as ->.
  { unfold scrapeUnstop. simpl. rewrite Hinner. simpl. by rewrite Hlist. }
  split.
  - intros Hall. destruct (unstop_map records Hall) as (events & -> & Hlen & Ht).
    by exists events.
  - intros (r & Hr & Hbad)%Exists_exists.
    assert (∃ e, unstopEvent r = Throw e) as [e He].
    { destruct Hbad as [Hnull|(url & reason & Hurl & Hthrow)].
      - by apply unstopEvent_nullish.
      - exists reason. by eapply unstopEvent_unconvertible. }
    by destruct (array_map_Throw unstopEvent records r e Hr He) as [e' ->].
Qed.
End AdapterFacts.

Lemma scrapeUnstop_one_event_per_record_witness :
  (∃ events,
     scrapeUnstop (H := ReferenceHost.host)
       (Normal (Samples.unstopBody
                  [Samples.unstopRecord (JSString "Hack One");
                   Samples.unstopRecord (JSString "Hack Two")]))
     = Normal events
     ∧ length events = 2%nat
     ∧ array_map (λ r, get r "title")
         [Samples.unstopRecord (JSString "Hack One");
          Samples.unstopRecord (JSString "Hack Two")]
       = Normal (event_name <$> events))
  ∧ scrapeUnstop (H := ReferenceHost.host)
      (Normal (Samples.unstopBody
                 [Samples.unstopRecord (JSString "Hack One");
                  JSObject [("title", JSString "Hack Two");
                            ("public_url", Samples.obj1 "toString" (JSNumber 1))]]))
    = Normal [].
Proof.
  split.
  - apply (proj1 (scrapeUnstop_one_event_per_record (H := ReferenceHost.host)
                    (Samples.unstopBody
                       [Samples.unstopRecord (JSString "Hack One");
                        Samples.unstopRecord (JSString "Hack Two")])
                    (Samples.obj1 "data"
                       (JSArray [Samples.unstopRecord (JSString "Hack One");
                                 Samples.unstopRecord (JSString "Hack Two")]))
                    _ eq_refl eq_refl)).
    apply Forall_cons_2; [split; [reflexivity|by eexists _, _]|].
    apply Forall_cons_2; [split; [reflexivity|by eexists _, _]|].
    apply Forall_nil_2.
  - apply (proj2 (scrapeUnstop_one_event_per_record (H := ReferenceHost.host)
                    (Samples.unstopBody
                       [Samples.unstopRecord (JSString "Hack One");
                        JSObject [("title", JSString "Hack Two");
                                  ("public_url",
                                   Samples.obj1 "toString" (JSNumber 1))]])
                    (Samples.obj1 "data"
                       (JSArray
                          [Samples.unstopRecord (JSString "Hack One");
                           JSObject [("title", JSString "Hack Two");
                                     ("public_url",
                                      Samples.obj1 "toString" (JSNumber 1))]]))
                    _ eq_refl eq_refl)).
    apply Exists_cons_tl, Exists_cons_hd. right.
    eexists _, _. split; reflexivity.
Defined.

Section DateFailures.
Context `{Host}.

(** A date that is present and does not parse makes [toISOString] throw. *)
Lemma isoDay_invalid (v : JSValue) :
  ToBoolean v = true → (∀ t, new_Date v ≠ Normal (Some t)) → ∃ e, isoDay v = Throw e.
Proof.
  unfold isoDay. intros -> Hnone.
  destruct (new_Date v) as [[t|]|]; simpl; [by destruct (Hnone t)|by eexists..].
Qed.

Lemma hackerEarthEvent_invalid_start (r v : JSValue) :
  get r "start_tz" = Normal v → ToBoolean v = true →
  (∀ t, new_Date v ≠ Normal (Some t)) →
  ∃ e, hackerEarthEvent r = Throw e.
Proof.
  intros Hget Htrue Hnone. unfold hackerEarthEvent.
  destruct (get_present r "title" (get_Normal_present _ _ _ Hget)) as [t ->].
  destruct (get_present r "url" (get_Normal_present _ _ _ Hget)) as [u ->].
  simpl. rewrite Hget. simpl.
  destruct (isoDay_invalid v Htrue Hnone) as [e ->]. by eexists.
Qed.

(** X4: the HackerEarth adapter reads only the first 20 records of the
    answer, and it is all or nothing: one record among them whose
    [start_tz] is present but does not parse as a date makes the adapter
    return no event at all, while the same record after the 20th is not
    even looked at. *)
Theorem scrapeHackerEarth_all_or_nothing (data : JSValue) (records : list JSValue) :
  get data "response" = Normal (JSArray records) →
  scrapeHackerEarth (Normal data)
  = try_catch (array_map hackerEarthEvent (take 20 records)) (λ _, Normal [])
  ∧ (∀ r v, r ∈ take 20 records →
            get r "start_tz" = Normal v → ToBoolean v = true →
            (∀ t, new_Date v ≠ Normal (Some t)) →
            scrapeHackerEarth (Normal data) = Normal []).
Proof.
  intros Hresponse.
  assert (scrapeHackerEarth (Normal data)
          = try_catch (array_map hackerEarthEvent (take 20 records))
              (λ _, Normal [])) as Hrun.
  { unfold scrapeHackerEarth, hackerEarthEvents. simpl. by rewrite Hresponse. }
  split; [done|].
  intros r v Hr Hget Htrue Hnone. rewrite Hrun.
  destruct (hackerEarthEvent_invalid_start r v Hget Htrue Hnone) as [e He].
  by destruct (array_map_Throw hackerEarthEvent _ r e Hr He) as [e' ->].
Qed.

Lemma devpostFeedEvent_invalid_pubDate (item v : JSValue) :
  get item "pubDate" = Normal v → ToBoolean v = true →
  (∀ t, new_Date v ≠ Normal (Some t)) →
  ∃ e, devpostFeedEvent item = Throw e.
Proof.
  intros Hget Htrue Hnone. unfold devpostFeedEvent.
  pose proof (get_Normal_present _ _ _ Hget) as Hitem.
  destruct (get_present item "title" Hitem) as [t ->].
  destruct (get_present item "link" Hitem) as [l ->].
  destruct (get_present item "contentSnippet" Hitem) as [c ->].
  simpl. destruct (substring_0_200_opt c); simpl; [|by eexists].
  rewrite Hget. simpl.
  destruct (isoDay_invalid v Htrue Hnone) as [e ->]. by eexists.
Qed.

(** X5: the Devpost adapter uses the fallback request only when the feed
    path fails, and then returns what the fallback gives, or no event
    when the fallback fails too. The feed path fails as a whole when one
    of its first 20 items has a [pubDate] that is present but does not
    parse as a date. *)
Theorem scrapeDevpost_falls_back (feed : Completion JSValue)
    (response : Completion JSValue) :
  (∀ events, devpostFeedEvents feed = Normal events →
             scrapeDevpost feed response = Normal events)
  ∧ (∀ e, devpostFeedEvents feed = Throw e →
          scrapeDevpost feed response = Normal (eventsOf (devpostApiEvents response)))
  ∧ (∀ body items item v,
       feed = Normal body → get body "items" = Normal (JSArray items) →
       item ∈ take 20 items →
       get item "pubDate" = Normal v → ToBoolean v = true →
       (∀ t, new_Date v ≠ Normal (Some t)) →
       scrapeDevpost feed response = Normal (eventsOf (devpostApiEvents response))).
Proof.
  assert (∀ e, devpostFeedEvents feed = Throw e →
            scrapeDevpost feed response
            = Normal (eventsOf (devpostApiEvents response))) as Hfall.
  { intros e He. unfold scrapeDevpost. rewrite He. simpl.
    by destruct (devpostApiEvents response). }
  split_and!; [|done|].
  - intros events Hev. unfold scrapeDevpost. by rewrite Hev.
  - intros body items item v -> Hitems Hitem Hget Htrue Hnone.
    destruct (devpostFeedEvent_invalid_pubDate item v Hget Htrue Hnone) as [e He].
    destruct (array_map_Throw devpostFeedEvent _ item e Hitem He) as [e' He'].
    apply (Hfall e'). unfold devpostFeedEvents. simpl. rewrite Hitems. simpl.
    exact He'.
Qed.
End DateFailures.

Lemma scrapeHackerEarth_all_or_nothing_witness :
  scrapeHackerEarth (H := ReferenceHost.host)
    (Normal (Samples.obj1 "response"
               (JSArray [JSObject [("title", JSString "Code Cup");
                                   ("start_tz", JSString "2025-03-01")];
                         JSObject [("title", JSString "Night Hack");
                                   ("start_tz", JSString "soon")]])))
  = Normal [].
Proof.
  apply (proj2 (scrapeHackerEarth_all_or_nothing (H := ReferenceHost.host)
                  (Samples.obj1 "response"
                     (JSArray [JSObject [("title", JSString "Code Cup");
                                         ("start_tz", JSString "2025-03-01")];
                               JSObject [("title", JSString "Night Hack");
                                         ("start_tz", JSString "soon")]]))
                  _ eq_refl)
           (JSObject [("title", JSString "Night Hack");
                      ("start_tz", JSString "soon")])
           (JSString "soon")).
  - apply list_elem_of_In. right. left. reflexivity.
  - reflexivity.
  - reflexivity.
  - intros t Ht. vm_compute in Ht. discriminate Ht.
Defined.

Lemma scrapeDevpost_falls_back_witness :
  scrapeDevpost (H := ReferenceHost.host)
    (Normal (Samples.obj1 "items"
               (JSArray [JSObject [("title", JSString "Open Hack");
                                   ("pubDate", JSString "next week")]])))
    (Normal (Samples.obj1 "hackathons"
               (JSArray [JSObject [("title", JSString "Open Hack")]])))
  = Normal (eventsOf
              (devpostApiEvents (H := ReferenceHost.host)
                 (Normal (Samples.obj1 "hackathons"
                            (JSArray [JSObject [("title", JSString "Open Hack")]]))))).
Proof.
  apply (proj2 (proj2 (scrapeDevpost_falls_back (H := ReferenceHost.host) _ _))
           (Samples.obj1 "items"
              (JSArray [JSObject [("title", JSString "Open Hack");
                                  ("pubDate", JSString "next week")]]))
           [JSObject [("title", JSString "Open Hack");
                      ("pubDate", JSString "next week")]]
           (JSObject [("title", JSString "Open Hack");
                      ("pubDate", JSString "next week")])
           (JSString "next week")).
  - reflexivity.
  - reflexivity.
  - apply list_elem_of_In. left. reflexivity.
  - reflexivity.
  - reflexivity.
  - intros t Ht. vm_compute in Ht. discriminate Ht.
Defined.

(** * Further properties of the run *)

Lemma contribution_settle (outcome : Completion (list Event)) :
  contribution (settle outcome) = eventsOf outcome.
Proof. by destruct outcome as [[|e l]|err]. Qed.

(** X6: the list handed to the duplicate filter is the concatenation of
    the lists of the six adapters in the order Devpost, Unstop, Dorahacks,
    Devfolio, HackerEarth, MLH, whatever each source answered; an adapter
    that fails or finds nothing adds nothing and moves nothing. *)
Theorem aggregate_in_registration_order `{Host} (w : World) :
  (aggregate (allSettled w)).1 =
    eventsOf (scrapeDevpost (devpost_feed w) (devpost_api w))
    ++ eventsOf (scrapeUnstop (unstop_response w))
    ++ eventsOf (scrapeDorahacks (dorahacks_response w))
    ++ eventsOf (scrapeDevfolio (devfolio_browser w))
    ++ eventsOf (scrapeHackerEarth (hackerearth_response w))
    ++ eventsOf (getMLHEvents (mlh_page w)).
Proof.
  rewrite aggregate_spec. unfold allSettled. simpl.
  by rewrite !contribution_settle, app_nil_r.
Qed.

(** X7: a run that returns a list has a string for the title of every
    event the adapters gave, and one event without such a title, from any
    adapter and at any position, makes the whole run throw. When no
    conversion of a start date throws, the run returns a list exactly when
    every event has a string for a title. *)
Theorem pipeline_returns_iff_titled `{Host} (results : list Settled) :
  ((∃ events, pipeline results = Normal events) → Forall titled (aggregate results).1)
  ∧ (¬ Forall titled (aggregate results).1 → ∃ reason, pipeline results = Throw reason)
  ∧ (Forall datable (aggregate results).1 →
     (∃ events, pipeline results = Normal events)
     ↔ Forall titled (aggregate results).1).
Proof.
  assert ((∃ events, pipeline results = Normal events) →
          Forall titled (aggregate results).1) as Hreturns.
  { intros [events Hev]. unfold pipeline in Hev.
    destruct (aggregate results) as [allEvents stats]. simpl.
    destruct (removeDuplicates allEvents) as [u|] eqn:Hu; simpl in Hev; [|done].
    by apply removeDuplicates_Normal in Hu as [Ht _]. }
  split_and!; [done| |].
  - intros Hnot. destruct (pipeline results) as [events|reason] eqn:Hrun; [|by eexists].
    destruct Hnot. apply Hreturns. by eexists.
  - intros Hdates. split; [done|].
    intros Ht. rewrite pipeline_returns by done. eexists. apply sortByDate_datable.
    pose proof (firstOfEachKey_subseteq (aggregate results).1) as Hsub.
    rewrite Forall_forall in Hdates |- *. intros e He. apply Hdates. set_solver.
Qed.

Lemma pipeline_returns_iff_titled_witness :
  Forall (datable (H := ReferenceHost.host))
    (aggregate [Fulfilled [Samples.march; Samples.tbd]; Fulfilled [Samples.nodate]]).1
  ∧ Forall titled
      (aggregate [Fulfilled [Samples.march; Samples.tbd]; Fulfilled [Samples.nodate]]).1
  ∧ ∃ events,
      pipeline (H := ReferenceHost.host)
        [Fulfilled [Samples.march; Samples.tbd]; Fulfilled [Samples.nodate]]
      = Normal events.
Proof.
  assert (Forall (datable (H := ReferenceHost.host))
            (aggregate [Fulfilled [Samples.march; Samples.tbd];
                        Fulfilled [Samples.nodate]]).1) as Hd.
  { repeat (apply Forall_cons_2; [eexists; reflexivity|]). apply Forall_nil_2. }
  assert (Forall titled
            (aggregate [Fulfilled [Samples.march; Samples.tbd];
                        Fulfilled [Samples.nodate]]).1) as Ht.
  { repeat (apply Forall_cons_2; [by eexists|]). apply Forall_nil_2. }
  split_and!; [exact Hd|exact Ht|].
  exact (proj2 (proj2 (proj2 (pipeline_returns_iff_titled (H := ReferenceHost.host)
                                [Fulfilled [Samples.march; Samples.tbd];
                                 Fulfilled [Samples.nodate]])) Hd) Ht).
Defined.

(** A start date that is an object with a [toString] property of its own,
    which the Unstop adapter passes on as it finds it, makes the
    comparator throw: the run throws although every title is a string. *)
Example pipeline_throws_in_the_sort :
  pipeline (H := ReferenceHost.host) [Fulfilled [Samples.january; Samples.night]]
  = Throw (TypeError "Cannot convert object to primitive value").
Proof. reflexivity. Qed.

(** X8: when the run returns, no two events of its result share a
    normalized title, the result holds exactly the first event of each key
    among the events the adapters gave, and it is not longer than their
    list. *)
Theorem getAllEvents_distinct_keys `{Host} (w : World) (events : list Event) :
  getAllEvents w = Normal events →
  NoDup (titleKey <$> events)
  ∧ events ≡ₚ firstOfEachKey (aggregate (allSettled w)).1
  ∧ (length events ≤ length (aggregate (allSettled w)).1)%nat.
Proof.
  unfold getAllEvents, pipeline.
  destruct (aggregate (allSettled w)) as [allEvents stats]. simpl.
  destruct (removeDuplicates allEvents) as [u|] eqn:Hu; simpl; [|done].
  intros Hperm%sortByDate_Permutation. apply removeDuplicates_Normal in Hu as [Ht ->].
  split_and!.
  - rewrite Hperm. apply firstOfEachKey_NoDup.
  - done.
  - rewrite Hperm. apply sublist_length, firstOfEachKey_sublist.
Qed.

Lemma getAllEvents_distinct_keys_witness :
  ∃ events,
    getAllEvents (H := ReferenceHost.host)
      (Samples.onlyUnstop
         (Samples.unstopBody
            [JSObject [("title", JSString "Hack One")];
             JSObject [("title", JSString "hack one!")]]))
    = Normal events
    ∧ length events = 1%nat
    ∧ NoDup (titleKey (H := ReferenceHost.host) <$> events).
Proof.
  eexists. split; [vm_compute; reflexivity|]. split; [reflexivity|].
  apply (getAllEvents_distinct_keys (H := ReferenceHost.host)
           (Samples.onlyUnstop
              (Samples.unstopBody
                 [JSObject [("title", JSString "Hack One")];
                  JSObject [("title", JSString "hack one!")]]))).
  vm_compute. reflexivity.
Defined.

(** X9: when no adapter contributes an event (every one fails or finds
    nothing), the run returns the empty list and counts 0 successes and 6
    failures: it does not throw. *)
Theorem getAllEvents_total_failure `{Host} (w : World) :
  Forall (λ result, contributes result = false) (allSettled w) →
  getAllEvents w = Normal []
  ∧ (aggregate (allSettled w)).2 = mkStats 0 6.
Proof.
  intros Hnone.
  assert (∀ results, Forall (λ result, contributes result = false) results →
            aggregate results = ([], mkStats 0 (length results))) as Hagg.
  { clear. intros results Hnone. rewrite aggregate_spec.
    induction Hnone as [|r results Hr _ IH]; [done|].
    injection IH as Hev Hs Hf.
    rewrite filter_cons_False, filter_cons_True by (by rewrite ?Hr).
    cbn [mbind list_bind length]. rewrite Hev, Hs, Hf.
    destruct r as [[|e l]|err]; by simplify_eq. }
  unfold getAllEvents, pipeline. rewrite (Hagg _ Hnone). by split.
Qed.

Lemma getAllEvents_total_failure_witness :
  getAllEvents (H := ReferenceHost.host)
    {| devpost_feed := Samples.down; devpost_api := Samples.down;
       unstop_response := Samples.down; dorahacks_response := Samples.down;
       devfolio_browser := Samples.down; hackerearth_response := Samples.down;
       mlh_page := Normal [] |}
  = Normal [].
Proof.
  apply (getAllEvents_total_failure (H := ReferenceHost.host)).
  repeat (apply Forall_cons_2; [reflexivity|]). apply Forall_nil_2.
Defined.

Section SorterEdges.
Context `{Host}.

Lemma filter_all {A} (Q : A → Prop) `{!∀ x, Decision (Q x)} (l : list A) :
  Forall Q l → filter Q l = l.
Proof. induction 1 as [|x l Hx _ IH]; [done|]. by rewrite filter_cons_True, IH. Qed.

(** X10: a list in which no event has a start date comes out of the sort
    as it went in, although the comparator answers 1 for every pair of
    such events in both directions. *)
Theorem sortByDate_undated_unchanged (events : list Event) :
  Forall undated events → sortByDate events = Normal events.
Proof.
  intros Hall.
  assert (sortByDate events = Normal (Array_sort (order_or_tie byStartDate) events))
    as Hout.
  { apply sortByDate_datable. eapply Forall_impl; [done|]. apply undated_datable. }
  rewrite Hout. f_equal.
  destruct (sortByDate_undatedLast events _ Hout) as (Hperm & _ & Hkeep).
  rewrite (filter_all undated events Hall) in Hkeep.
  etransitivity; [|done].
  symmetry. apply filter_all. by rewrite Hperm.
Qed.

(** X11: when every start date that is present parses, the sort returns
    and is stable on the dates: the events with one and the same parsed
    date keep their input order. *)
Theorem sortByDate_stable_on_equal_dates (events : list Event) (t : Z) :
  Forall parseable events →
  ∃ output,
    sortByDate events = Normal output
    ∧ filter (λ e, dated e ∧ parsedDate e = Some t) output
      = filter (λ e, dated e ∧ parsedDate e = Some t) events.
Proof.
  intros HP. eexists. split.
  { apply sortByDate_datable. eapply Forall_impl; [done|]. apply parseable_datable. }
  destruct (Array_sort_spec (order_or_tie byStartDate) dateRank rankLe parseable
              byStartDate_before_le byStartDate_not_before events HP) as [_ Hf].
  pose proof (Array_sort_Permutation (order_or_tie byStartDate) events) as Hperm.
  assert (Forall parseable (Array_sort (order_or_tie byStartDate) events)) as HP'
    by (by rewrite Hperm).
  assert (∀ e, parseable e →
            (dated e ∧ parsedDate e = Some t) ↔ dateRank e = Some t) as Hrank.
  { intros e He. unfold parseable, dated, undated, dateRank in *.
    destruct (ToBoolean (start_date e)); [|naive_solver].
    destruct He as [?|[t' Ht']]; [done|]. rewrite Ht'. simpl. naive_solver. }
  rewrite (filter_iff_Forall parseable _ (λ e, dateRank e = Some t) _ HP' Hrank).
  rewrite (filter_iff_Forall parseable _ (λ e, dateRank e = Some t) _ HP Hrank).
  apply (Hf (Some t)).
  intros a b Ha Hb Hra Hrb Hlt.
  apply (byStartDate_before a b Ha Hb Hlt). rewrite Hra, Hrb. simpl. lia.
Qed.
End SorterEdges.

Lemma sortByDate_undated_unchanged_witness :
  sortByDate (H := ReferenceHost.host)
    [Samples.nodate; Samples.event "MLH" "Late Hack" (JSString EmptyString)]
  = Normal [Samples.nodate; Samples.event "MLH" "Late Hack" (JSString EmptyString)].
Proof.
  apply (sortByDate_undated_unchanged (H := ReferenceHost.host)).
  apply Forall_cons_2; [reflexivity|]. apply Forall_cons_2; [reflexivity|].
  apply Forall_nil_2.
Defined.

Lemma sortByDate_stable_on_equal_dates_witness :
  ∃ output,
    sortByDate (H := ReferenceHost.host)
      [Samples.march; Samples.january;
       Samples.event "MLH" "New Year Hack" (JSString "2025-01-01")]
    = Normal output
    ∧ filter (λ e, dated e ∧ parsedDate (H := ReferenceHost.host) e = Some 1735689600000)
        output
      = filter (λ e, dated e ∧ parsedDate (H := ReferenceHost.host) e = Some 1735689600000)
          [Samples.march; Samples.january;
           Samples.event "MLH" "New Year Hack" (JSString "2025-01-01")].
Proof.
  apply (sortByDate_stable_on_equal_dates (H := ReferenceHost.host)).
  repeat (apply Forall_cons_2; [right; apply (bool_decide_unpack _); vm_compute; exact I|]). apply Forall_nil_2.
Defined.

(** * Further properties of the duplicate filter *)

Lemma strip_non_alnum_chars (s : string) :
  Forall (λ c, in_a_z_0_9 c = true) (String.list_ascii_of_string (strip_non_alnum s)).
Proof.
  induction s as [|c s IH]; simpl; [constructor|].
  destruct (in_a_z_0_9 c) eqn:Hc; simpl; [by constructor|done].
Qed.

Lemma strip_non_alnum_fixed (s : string) :
  Forall (λ c, in_a_z_0_9 c = true) (String.list_ascii_of_string s) →
  strip_non_alnum s = s.
Proof.
  induction s as [|c s IH]; simpl; [done|].
  intros [Hc Hs]%Forall_cons. by rewrite Hc, IH.
Qed.


Lemma firstOfEachKey_head `{Host} (e : Event) (l : list Event) :
  head (firstOfEachKey (e :: l)) = Some e.
Proof.
  unfold firstOfEachKey. cbn [imap take fmap list_fmap].
  destruct (decide (titleKey e ∈ [])) as [Hin|]; [by apply elem_of_nil in Hin|done].
Qed.

(** X13: when the duplicate filter returns, its result is a sublist of its
    input (same events, same relative order, nothing added) that starts
    with the first event of the input; it is empty only for the empty
    input. *)
Theorem removeDuplicates_keeps_order_and_head `{Host}
    (allEvents uniqueEvents : list Event) :
  removeDuplicates allEvents = Normal uniqueEvents →
  uniqueEvents `sublist_of` allEvents
  ∧ head uniqueEvents = head allEvents
  ∧ (uniqueEvents = [] ↔ allEvents = []).
Proof.
  intros [Ht ->]%removeDuplicates_Normal.
  split_and!; [apply firstOfEachKey_sublist| |].
  - destruct allEvents as [|e l]; [done|]. apply firstOfEachKey_head.
  - destruct allEvents as [|e l]; [done|].
    split; [|done]. intros Hnil.
    pose proof (firstOfEachKey_head e l) as Hhead. by rewrite Hnil in Hhead.
Qed.

Lemma removeDuplicates_keeps_order_and_head_witness :
  ∃ uniqueEvents,
    removeDuplicates (H := ReferenceHost.host)
      [Samples.march; Samples.january; Samples.march]
    = Normal uniqueEvents
    ∧ head uniqueEvents = Some Samples.march.
Proof.
  eexists. split; [vm_compute; reflexivity|].
  apply (removeDuplicates_keeps_order_and_head (H := ReferenceHost.host)
           [Samples.march; Samples.january; Samples.march]).
  vm_compute. reflexivity.
Defined.

(** * Properties of the first script *)

Module LegacyFacts.
Import Legacy.

Lemma foldl_push_item (src : Source) (events : list Entry) (items : list Item) :
  foldl (push_item src) events items =
    events ++ ((λ item, {| source := name src; title := item_title item;
                           link := item_link item |}) <$> items).
Proof.
  revert events. induction items as [|item items IH]; intros events; simpl.
  - by rewrite app_nil_r.
  - rewrite IH. unfold push_item. by rewrite <- (assoc_L (++)).
Qed.

Lemma foldl_push_element (src : Source) (title_selector link_selector : string)
    (events : list Entry) (elements : list Element) :
  foldl (push_element src title_selector link_selector) events elements =
    events ++
    omap (λ el,
           match href_of el link_selector with
           | Some link =>
               if decide (text_of el title_selector ≠ EmptyString
                          ∧ link ≠ EmptyString)
               then Some {| source := name src;
                            title := Some (text_of el title_selector);
                            link := Some link |}
               else None
           | None => None
           end) elements.
Proof.
  revert events. induction elements as [|el elements IH]; intros events.
  { by rewrite app_nil_r. }
  cbn [foldl omap list_omap]. rewrite IH. unfold push_element.
  destruct (href_of el link_selector) as [l|]; [|done].
  destruct (ToBoolean (JSString (text_of el title_selector))) eqn:Ht;
    destruct (ToBoolean (JSString l)) eqn:Hl; cbn [andb].
  - apply nonempty_truthy in Ht, Hl. rewrite decide_True by done.
    by rewrite <- (assoc_L (++)).
  - rewrite decide_False; [done|]. intros [_ Hne%nonempty_truthy]. congruence.
  - rewrite decide_False; [done|]. intros [Hne%nonempty_truthy _]. congruence.
  - rewrite decide_False; [done|]. intros [Hne%nonempty_truthy _]. congruence.
Qed.

Lemma scrape_source_spec (web : Web) (events : list Entry) (src : Source) :
  scrape_source web events src = Normal (events ++ contribution web src).
Proof.
  unfold scrape_source, contribution. destruct (kind src) as [|sel t l].
  - destruct (parseURL web (url src)); simpl.
    + by rewrite foldl_push_item.
    + by rewrite app_nil_r.
  - destruct (axios_get web (url src)); simpl.
    + by rewrite foldl_push_element.
    + by rewrite app_nil_r.
Qed.

Lemma scrape_loop (web : Web) (srcs : list Source) (events : list Entry) :
  forEach (scrape_source web) srcs events
  = Normal (events ++ srcs ≫= contribution web).
Proof.
  revert events. induction srcs as [|src srcs IH]; intros events; simpl.
  - by rewrite app_nil_r.
  - rewrite scrape_source_spec. simpl. rewrite IH. by rewrite <- (assoc_L (++)).
Qed.

(** X14: the first script's scraper never throws, and its result is what
    each source gives when read on its own, source after source: a source
    whose fetch fails is skipped and changes nothing of what the others
    give. *)
Theorem scrapeEvents_source_by_source (web : Web) :
  scrapeEvents web = Normal (sources ≫= contribution web)
  ∧ (∀ src e,
        (kind src = Rss → parseURL web (url src) = Throw e) →
        (kind src ≠ Rss → axios_get web (url src) = Throw e) →
        contribution web src = []).
Proof.
  split; [apply scrape_loop|].
  intros src e Hrss Hhtml. unfold contribution.
  destruct (kind src) as [|sel t l].
  - by rewrite Hrss.
  - by rewrite Hhtml.
Qed.

(** X15: every event the first script takes from a page (Devfolio,
    Kaggle) has a non-empty title and a non-empty link; the items of the
    feed are taken as they are. *)
Theorem scrapeEvents_page_entries_complete (web : Web) (events : list Entry)
    (e : Entry) :
  scrapeEvents web = Normal events → e ∈ events →
  source e ∈ name <$> sources
  ∧ (source e ≠ "Devpost" →
     ∃ t l, title e = Some t ∧ link e = Some l
            ∧ t ≠ EmptyString ∧ l ≠ EmptyString).
Proof.
  unfold scrapeEvents. rewrite scrape_loop. intros [= <-]. simpl.
  rewrite app_nil_r, !elem_of_app.
  unfold contribution. simpl.
  intros [He|[He|He]].
  - destruct (parseURL web _); [|by apply elem_of_nil in He].
    apply list_elem_of_fmap in He as (item & -> & _). simpl.
    split; [set_solver|done].
  - destruct (axios_get web _) as [page|]; [|by apply elem_of_nil in He].
    apply list_elem_of_omap in He as (el & _ & Hel).
    destruct (href_of el "a") as [l|]; [|done].
    case_decide as Hne; [|done]. injection Hel as <-. simpl.
    split; [set_solver|]. intros _. by exists (text_of el ".hackathon-title"), l.
  - destruct (axios_get web _) as [page|]; [|by apply elem_of_nil in He].
    apply list_elem_of_omap in He as (el & _ & Hel).
    destruct (href_of el "a") as [l|]; [|done].
    case_decide as Hne; [|done]. injection Hel as <-. simpl.
    split; [set_solver|]. intros _. by exists (text_of el ".competition-title"), l.
Qed.
End LegacyFacts.

Module LegacyEffects.
Import Legacy.

Section ScriptFacts.
Context `{Host}.

Lemma send_from_ok (env : Env) (services : Services) (i : nat) (events : list Entry) :
  (∀ j, (j < length events)%nat → post services (i + j) = Normal ()) →
  send_from env services i events = (request env <$> events, Normal ()).
Proof.
  revert i. induction events as [|e events IH]; intros i Hok; [done|].
  cbn [send_from]. pose proof (Hok 0%nat) as H0. rewrite Nat.add_0_r in H0.
  rewrite H0 by (simpl; lia). cbn [run_bind].
  rewrite IH; [done|].
  intros j Hj. replace (S i + j)%nat with (i + S j)%nat by lia.
  apply Hok. simpl. lia.
Qed.

Lemma send_from_fails (env : Env) (services : Services) (i k : nat)
    (events : list Entry) (err : Error) :
  (k < length events)%nat →
  (∀ j, (j < k)%nat → post services (i + j) = Normal ()) →
  post services (i + k) = Throw err →
  send_from env services i events = (request env <$> take (S k) events, Throw err).
Proof.
  revert i k. induction events as [|e events IH]; intros i k Hk Hok Herr.
  { simpl in Hk. lia. }
  cbn [send_from]. destruct k as [|k].
  - rewrite Nat.add_0_r in Herr. rewrite Herr. cbn [run_bind take].
    by rewrite take_0.
  - pose proof (Hok 0%nat) as H0. rewrite Nat.add_0_r in H0.
    rewrite H0 by lia. cbn [run_bind].
    rewrite (IH (S i) k); [done|simpl in Hk; lia| |].
    + intros j Hj. replace (S i + j)%nat with (i + S j)%nat by lia. apply Hok. lia.
    + by replace (S i + k)%nat with (i + S k)%nat by lia.
Qed.

(** X16: the messages are posted one per event, in the order of the
    events; the first post that fails ends the loop with its error, so
    the events after it are never posted. *)
Theorem sendToTelegram_stops_at_first_failure (env : Env) (services : Services)
    (events : list Entry) :
  ((∀ j, (j < length events)%nat → post services j = Normal ()) →
   sendToTelegram env services events = (request env <$> events, Normal ()))
  ∧ (∀ k err,
       (k < length events)%nat →
       (∀ j, (j < k)%nat → post services j = Normal ()) →
       post services k = Throw err →
       sendToTelegram env services events
       = (request env <$> take (S k) events, Throw err)).
Proof.
  split.
  - intros Hok. by apply send_from_ok.
  - intros k err Hk Hok Herr. by apply send_from_fails.
Qed.

(** X17: with no event found the script calls neither the spreadsheet nor
    the chat and ends normally; when getting the spreadsheet client or
    the append fails, the error ends the script and no message is posted
    to the chat. *)
Theorem main_posts_only_after_the_sheet (web : Web) (env : Env) (services : Services) :
  (sources ≫= contribution web = [] → main web env services = ([], Normal ()))
  ∧ (sources ≫= contribution web ≠ [] →
     ∀ err, (getSheets services = Throw err ∨
             (getSheets services = Normal () ∧ append services = Throw err)) →
     (main web env services).2 = Throw err
     ∧ filter (λ a, is_post a = true) (main web env services).1 = [])
  ∧ (sources ≫= contribution web ≠ [] →
     getSheets services = Normal () → append services = Normal () →
     main web env services
     = (Append (GOOGLE_SHEET_ID env) "Events!A:D"
          (imap (row services) (sources ≫= contribution web))
        :: (sendToTelegram env services (sources ≫= contribution web)).1,
        (sendToTelegram env services (sources ≫= contribution web)).2)).
Proof.
  unfold main, scrapeEvents. rewrite LegacyFacts.scrape_loop. cbn [run_bind app].
  set (events := sources ≫= contribution web).
  assert (events ≠ [] → (0 <? length events)%nat = true) as Hlen.
  { destruct events; [done|]. by intros _. }
  split_and!.
  - intros ->. by simpl.
  - intros Hne err Hfail.
    rewrite (Hlen Hne). unfold updateSheet.
    destruct Hfail as [->|[-> ->]]; by simpl.
  - intros Hne Hsheets Happend.
    rewrite (Hlen Hne). unfold updateSheet. rewrite Hsheets, Happend.
    cbn [run_bind app]. by destruct (sendToTelegram env services events).
Qed.
End ScriptFacts.
End LegacyEffects.

Lemma scrapeEvents_source_by_source_witness :
  Legacy.contribution LegacySamples.web
    (Legacy.mkSource "Devpost" "https://devpost.com/hackathons.atom" Legacy.Rss)
  = [].
Proof.
  apply (proj2 (LegacyFacts.scrapeEvents_source_by_source LegacySamples.web)
           _ (TransportError "feed down")).
  - intros _. reflexivity.
  - intros Hne. exfalso. apply Hne. reflexivity.
Defined.

Lemma scrapeEvents_page_entries_complete_witness :
  Legacy.scrapeEvents LegacySamples.web = Normal [LegacySamples.entry]
  ∧ ∃ t l, Legacy.title LegacySamples.entry = Some t
           ∧ Legacy.link LegacySamples.entry = Some l
           ∧ t ≠ EmptyString ∧ l ≠ EmptyString.
Proof.
  split; [reflexivity|].
  apply (LegacyFacts.scrapeEvents_page_entries_complete LegacySamples.web
           [LegacySamples.entry] LegacySamples.entry eq_refl).
  - apply list_elem_of_In. left. reflexivity.
  - discriminate.
Defined.

Lemma sendToTelegram_stops_at_first_failure_witness :
  Legacy.sendToTelegram LegacySamples.env
    LegacySamples.chatDown [LegacySamples.entry; LegacySamples.entry]
  = (Legacy.request LegacySamples.env <$> take 1 [LegacySamples.entry; LegacySamples.entry],
     Throw (TransportError "chat down")).
Proof.
  apply (proj2 (LegacyEffects.sendToTelegram_stops_at_first_failure
                  LegacySamples.env LegacySamples.chatDown
                  [LegacySamples.entry; LegacySamples.entry])
           0%nat (TransportError "chat down")).
  - simpl. lia.
  - intros j Hj. lia.
  - reflexivity.
Defined.

Lemma main_posts_only_after_the_sheet_witness :
  (Legacy.main (H := ReferenceHost.host) LegacySamples.web LegacySamples.env
     LegacySamples.sheetDown).2 = Throw (TransportError "quota")
  ∧ filter (λ a, Legacy.is_post a = true)
      (Legacy.main (H := ReferenceHost.host) LegacySamples.web LegacySamples.env
         LegacySamples.sheetDown).1 = [].
Proof.
  apply (proj1 (proj2 (LegacyEffects.main_posts_only_after_the_sheet
                         (H := ReferenceHost.host) LegacySamples.web
                         LegacySamples.env LegacySamples.sheetDown))).
  - discriminate.
  - right. split; reflexivity.
Defined.
